(** * duui-pdf: geometric reconciliation and segmentation augmentation

    A shallow embedding of the pure core of the repository
    ([bbox.py], [utils.py], [pdf_processor.find_block_num] and
    [pdf_segmentation.process_segmentation]) together with the properties
    the specification states about it.

    Modelling conventions.
    - A pandas [DataFrame] is the list of its rows in index order; a
      column is the [map] of a field over that list.
    - Integer columns are [Z].  An aggregate over an empty selection is
      pandas' [NaN]; every ordered comparison with [NaN] is [False].
    - Point-space and scaled pixel-space coordinates are Python floats;
      they are modelled by exact rationals [Q] (rounding is abstracted).
    - A Python [set] is a [gset]; a raised exception is [Raise e].
    - Only in-memory tables are modelled: the branches that load a CSV
      file or open the PDF are input/output, and the page size they
      read is a parameter.
    - [str] is [string], a sequence of the code points 0 to 255;
      [lower] changes the letters that [str.lower()] changes in that
      range (A-Z and the capital letters 192-214 and 216-222).
    - Sums of integer columns are [int64] sums and wrap around. *)

From Stdlib Require Import ZArith QArith String Ascii List Lia Sorted Permutation.
From Stdlib Require Import DecimalString Field.
From stdpp Require Import base decidable list gmap sets sorting.

Local Open Scope string_scope.
Local Open Scope list_scope.
Local Open Scope Z_scope.

(** ** Python values shared by the modules *)

(** Exceptions the modelled code can raise. *)
Inductive exn : Set :=
  | TypeError
  | ValueError
  | IndexError.

Inductive result (A : Type) : Type :=
  | Ok (a : A)
  | Raise (e : exn).
Arguments Ok {A} a.
Arguments Raise {A} e.

Definition bind {A B} (m : result A) (k : A → result B) : result B :=
  match m with
  | Ok a => k a
  | Raise e => Raise e
  end.

Notation "x ←! m ; k" := (bind m (fun x => k))
  (at level 20, m at level 100, k at level 200, only parsing).

(** [for row in rows: state = body(state, row)] where the body may raise. *)
Fixpoint for_each {S A} (body : S → A → result S) (rows : list A) (s : S)
  : result S :=
  match rows with
  | [] => Ok s
  | row :: rest => s' ←! body s row; for_each body rest s'
  end.

(** The value of a pandas aggregate: a number, or [NaN] on empty data. *)
Inductive num : Set :=
  | Num (z : Z)
  | NaN.

(** The result of an [int64] addition whose exact value is [z]: the
    integer columns are [int64], and their sums wrap around. *)
Definition int64 (z : Z) : Z := (z + 2 ^ 63) mod 2 ^ 64 - 2 ^ 63.

(** [Series.min()] and [Series.max()] of an integer column. *)
Definition series_min (l : list Z) : num :=
  match l with
  | [] => NaN
  | x :: l' => Num (foldl Z.min x l')
  end.

Definition series_max (l : list Z) : num :=
  match l with
  | [] => NaN
  | x :: l' => Num (foldl Z.max x l')
  end.

(** [z < n] where [n] may be [NaN]. *)
Definition lt_num (z : Z) (n : num) : bool :=
  match n with
  | Num m => bool_decide (z < m)
  | NaN => false
  end.

(** [Series.unique()] / [drop_duplicates(subset=...)]: the first row of
    each key, in order of first appearance. *)
Fixpoint first_by {A K} `{Countable K} (key : A → K) (seen : gset K)
    (l : list A) : list A :=
  match l with
  | [] => []
  | x :: l' =>
      if decide (key x ∈ seen) then first_by key seen l'
      else x :: first_by key ({[key x]} ∪ seen) l'
  end.

Definition unique (l : list Z) : list Z := first_by id ∅ l.

(** ** Strings *)

(** [needle in hay] *)
Fixpoint contains (needle hay : string) : bool :=
  String.prefix needle hay ||
  match hay with
  | EmptyString => false
  | String _ hay' => contains needle hay'
  end.

(** [c.lower()] for one code point below 256: the capital letters are
    65-90, 192-214 and 216-222, each 32 below its small letter. *)
Definition lower_ascii (c : ascii) : ascii :=
  let n := nat_of_ascii c in
  if ((65 <=? n)%nat && (n <=? 90)%nat)
     || ((192 <=? n)%nat && (n <=? 214)%nat)
     || ((216 <=? n)%nat && (n <=? 222)%nat)
  then ascii_of_nat (n + 32) else c.

(** [s.lower()] *)
Fixpoint lower (s : string) : string :=
  match s with
  | EmptyString => EmptyString
  | String c s' => String (lower_ascii c) (lower s')
  end.

(** [str(n)] for an integer. *)
Definition py_str (n : Z) : string := NilZero.string_of_int (Z.to_int n).

(** [int(c)] for a one-character string [c]. *)
Definition py_int_char (c : ascii) : result Z :=
  let n := nat_of_ascii c in
  if (48 <=? n)%nat && (n <=? 57)%nat then Ok (Z.of_nat (n - 48))
  else Raise ValueError.

(** [s[0]] *)
Definition str_first (s : string) : result ascii :=
  match s with
  | EmptyString => Raise IndexError
  | String c _ => Ok c
  end.

(** [s[-1]] *)
Fixpoint str_last (s : string) : result ascii :=
  match s with
  | EmptyString => Raise IndexError
  | String c EmptyString => Ok c
  | String _ s' => str_last s'
  end.

(** [s[:-2]] *)
Definition str_drop_last2 (s : string) : string :=
  String.substring 0 (String.length s - 2) s.

(** ** OCR records (one row of the Pytesseract table) *)

Module Ocr.
Record Row : Set := mk {
  page_num : Z;
  block_num : Z;
  left : Z;
  top : Z;
  width : Z;
  height : Z;
  text : string
}.

(** The identity of a block: [(block_num, page_num)]. *)
Definition key (r : Row) : Z * Z := (block_num r, page_num r).
End Ocr.

(** A rectangle [(x0, top, x1, bottom)]. *)
Definition bbox (A : Type) : Type := (A * A * A * A)%type.

(** ** bbox.py *)

Definition calculate_bbox (ocr_data : list Ocr.Row) (block page : Z) : bbox num :=
  let block_data :=
    filter (λ r, Ocr.block_num r = block ∧ Ocr.page_num r = page) ocr_data in
  let x0 := series_min (map Ocr.left block_data) in
  let x1 :=
    series_max (map (λ r, int64 (Ocr.left r + Ocr.width r)) block_data) in
  let top := series_min (map Ocr.top block_data) in
  let bottom :=
    series_max (map (λ r, int64 (Ocr.top r + Ocr.height r)) block_data) in
  (x0, top, x1, bottom).

(** Truth value of a 4-tuple, as tested by [if title_bbox:]: a tuple is
    falsy only when it is empty. *)
Definition truthy {A} (t : bbox A) : bool := true.

Definition bbox_top {A} (t : bbox A) : A := let '(_, top, _, _) := t in top.

Definition ocr_page_width : Q := 1654.
Definition ocr_page_height : Q := 2339.
Definition padding : Q := 3.

(** The rectangle [extract_text_from_bbox] hands to [within_bbox]: the
    pixel rectangle scaled to points and padded.  [page_width] and
    [page_height] are [pdf_page.width] and [pdf_page.height]. *)
Definition extract_text_from_bbox_rect (b : bbox Q) (page_width page_height : Q)
  : bbox Q :=
  let '(b0, b1, b2, b3) := b in
  let width_scale := (page_width / ocr_page_width)%Q in
  let height_scale := (page_height / ocr_page_height)%Q in
  let x0 := (b0 * width_scale - padding)%Q in
  let top := (b1 * height_scale - padding)%Q in
  let x1 := (b2 * width_scale + padding)%Q in
  let bottom := (b3 * height_scale + padding)%Q in
  (x0, top, x1, bottom).

Definition convert_bbox_to_pixels (b : bbox Q) (pdf_page_width pdf_page_height : Q)
  : bbox Q :=
  let '(x0_pdf, top_pdf, x1_pdf, bottom_pdf) := b in
  let width_scale := (ocr_page_width / pdf_page_width)%Q in
  let height_scale := (ocr_page_height / pdf_page_height)%Q in
  let x0_ocr := (x0_pdf * width_scale)%Q in
  let top_ocr := (top_pdf * height_scale)%Q in
  let x1_ocr := (x1_pdf * width_scale)%Q in
  let bottom_ocr := (bottom_pdf * height_scale)%Q in
  (x0_ocr, top_ocr, x1_ocr, bottom_ocr).

(** [a < b] on coordinates. *)
Definition Qltb (a b : Q) : bool :=
  match (a ?= b)%Q with
  | Lt => true
  | _ => false
  end.

(** The overlap test of [get_table_block_nums], with the OCR word box
    first and the target second. *)
Definition overlaps (ocr target : bbox Q) : bool :=
  let '(x0_ocr, top_ocr, x1_ocr, bottom_ocr) := ocr in
  let '(x0_target, top_target, x1_target, bottom_target) := target in
  Qltb x0_ocr x1_target && Qltb x0_target x1_ocr &&
  Qltb top_ocr bottom_target && Qltb top_target bottom_ocr.

(** The tight box of one OCR word. *)
Definition word_bbox (row : Ocr.Row) : bbox Q :=
  let x0_ocr := Ocr.left row in
  let top_ocr := Ocr.top row in
  let x1_ocr := int64 (x0_ocr + Ocr.width row) in
  let bottom_ocr := int64 (top_ocr + Ocr.height row) in
  (inject_Z x0_ocr, inject_Z top_ocr, inject_Z x1_ocr, inject_Z bottom_ocr).

Fixpoint table_scan (rows : list Ocr.Row) (target_bbox : bbox Q)
    (block_nums : gset Z) : gset Z :=
  match rows with
  | [] => block_nums
  | row :: rest =>
      let block_nums :=
        if overlaps (word_bbox row) target_bbox then
          let block_nums := {[Ocr.block_num row]} ∪ block_nums in
          match rest with
          | next_row :: _ =>
              if contains "Table" (Ocr.text next_row)
              then {[Ocr.block_num next_row]} ∪ block_nums
              else block_nums
          | [] => block_nums
          end
        else block_nums in
      table_scan rest target_bbox block_nums
  end.

Definition get_table_block_nums (ocr_data : list Ocr.Row) (target_bbox : bbox Q)
    (page_num : Z) : gset Z :=
  let filtered_data := filter (λ r, Ocr.page_num r = page_num + 1) ocr_data in
  table_scan filtered_data target_bbox ∅.

(** The loop of [get_figure_block_nums]; the [break] ends the scan at
    the first row below the target. *)
Fixpoint figure_scan (rows : list Ocr.Row) (bottom_target : Q)
    (block_nums : gset Z) : gset Z :=
  match rows with
  | [] => block_nums
  | row :: rest =>
      let top_ocr := inject_Z (Ocr.top row) in
      if Qltb bottom_target top_ocr then
        if contains "Figure" (Ocr.text row)
        then {[Ocr.block_num row]} ∪ block_nums
        else block_nums
      else figure_scan rest bottom_target block_nums
  end.

Definition get_figure_block_nums (ocr_data : list Ocr.Row) (target_bbox : bbox Q)
    (page_num : Z) : gset Z :=
  let '(_, _, _, bottom_target) := target_bbox in
  let filtered_data := filter (λ r, Ocr.page_num r = page_num + 1) ocr_data in
  figure_scan filtered_data bottom_target ∅.

(** ** utils.py *)

Module Outline.
(** [[level, label, page]] as returned by [get_toc(simple=True)]. *)
Record Entry : Set := mk { level : Z; label : string; page : Z }.
(** The entry after [e.append(index)]. *)
Record Indexed : Set := mkI { entry : Entry; index : string }.
End Outline.

(** The index appended to entry [e] when the previous entry, already
    indexed, is [pre]. *)
Definition next_index (pre : Outline.Indexed) (e : Outline.Entry) : result string :=
  let level_pre := Outline.level (Outline.entry pre) in
  let index_pre := Outline.index pre in
  if decide (Outline.level e = 1) then
    c ←! str_first index_pre;
    n ←! py_int_char c;
    Ok (py_str (n + 1))
  else if decide (level_pre < Outline.level e) then
    Ok (index_pre ++ ".1")%string
  else
    c ←! str_last index_pre;
    n ←! py_int_char c;
    Ok (str_drop_last2 index_pre ++ "." ++ py_str (n + 1))%string.

(** The loop of [get_index] from position 1 on; [done] holds the
    entries indexed so far in reverse, so its head is [sections[id-1]]. *)
Definition get_index_body (done : list Outline.Indexed) (e : Outline.Entry)
  : result (list Outline.Indexed) :=
  match done with
  | [] => Ok [Outline.mkI e "1"]
  | pre :: _ => i ←! next_index pre e; Ok (Outline.mkI e i :: done)
  end.

Definition get_index (sections : list Outline.Entry) : result (list Outline.Indexed) :=
  done ←! for_each get_index_body sections []; Ok (rev done).

(** The character class [[\x00-\x09\x0B-\x1F]]: the control characters
    other than the line feed. *)
Definition is_special (c : ascii) : bool :=
  let n := nat_of_ascii c in
  (n <=? 9)%nat || ((11 <=? n)%nat && (n <=? 31)%nat).

(** [re.sub(r'[\x00-\x09\x0B-\x1F]', '', text)] *)
Fixpoint remove_special_characters (text : string) : string :=
  match text with
  | EmptyString => EmptyString
  | String c text' =>
      if is_special c then remove_special_characters text'
      else String c (remove_special_characters text')
  end.

(** The least position at which [needle] occurs in [hay], if any. *)
Fixpoint str_find (needle hay : string) : option nat :=
  if String.prefix needle hay then Some 0%nat
  else match hay with
       | EmptyString => None
       | String _ hay' => S <$> str_find needle hay'
       end.

(** [hay.find(needle)]: the least position, or [-1]. *)
Definition py_find (hay needle : string) : Z :=
  match str_find needle hay with
  | Some i => Z.of_nat i
  | None => -1
  end.

Definition find_label (text label : string) : Z * Z :=
  let label := remove_special_characters label in
  let start := py_find text label in
  let end_ := start + Z.of_nat (String.length label) in
  (start, end_).

(** ** pdf_processor.py: [find_block_num] *)

(** [Levenshtein.distance]: the number of single-character insertions,
    deletions and substitutions turning one string into the other, by
    the textbook recurrence. *)
Fixpoint distance (s : string) : string → nat :=
  fix distance_s (t : string) : nat :=
    match s, t with
    | EmptyString, _ => String.length t
    | _, EmptyString => String.length s
    | String a s', String b t' =>
        if Ascii.eqb a b then distance s' t'
        else S (Nat.min (distance s' t') (Nat.min (distance s' t) (distance_s t')))
    end.

(** Order of the group keys [(block_num, page_num)] after [groupby]. *)
Definition group_lt (k k' : Z * Z) : Prop :=
  k.1 < k'.1 ∨ (k.1 = k'.1 ∧ k.2 < k'.2).

Definition group_le (k k' : Z * Z) : Prop := k = k' ∨ group_lt k k'.

Fixpoint insert_key (k : Z * Z) (l : list (Z * Z)) : list (Z * Z) :=
  match l with
  | [] => [k]
  | k' :: l' =>
      if decide (k = k') then l
      else if decide (group_lt k k') then k :: l
      else k' :: insert_key k l'
  end.

(** The distinct keys of the table, ascending, as [groupby] yields them. *)
Definition group_keys (df : list Ocr.Row) : list (Z * Z) :=
  foldr insert_key [] (map Ocr.key df).

(** [' '.join] of the texts of one group, in row order. *)
Definition group_text (df : list Ocr.Row) (k : Z * Z) : string :=
  String.concat " " (map Ocr.text (filter (λ r, Ocr.key r = k) df)).

(** [df.groupby(['block_num','page_num'])['text'].apply(' '.join).reset_index()] *)
Definition groupby_join (df : list Ocr.Row) : list (Z * Z * string) :=
  map (λ k, (k.1, k.2, group_text df k)) (group_keys df).

(** [d < lowest_distance], where [None] is [float('inf')]. *)
Definition lt_inf (d : nat) (lowest : option nat) : bool :=
  match lowest with
  | None => true
  | Some l => bool_decide (d < l)%nat
  end.

Definition best_row (chars : string) (st : option Z * option Z * option nat)
    (row : Z * Z * string) : option Z * option Z * option nat :=
  let '(b, p, txt) := row in
  let ocr_string := lower txt in
  let d := distance chars ocr_string in
  if lt_inf d st.2 then (Some b, Some p, Some d) else st.

Definition find_block_num (chars : string) (df : list Ocr.Row)
  : result (option Z * option Z) :=
  match df with
  | [] => Raise ValueError
  | _ =>
      let chars := lower chars in
      let grouped := groupby_join df in
      let '(block_num, page_num, _) :=
        foldl (best_row chars) (None, None, None) grouped in
      Ok (block_num, page_num)
  end.

(** ** pdf_processor.py: [find_abstract] and [find_keywords] *)

(** The characters [str.strip()] removes, among the first 256 code
    points. *)
Definition is_space (c : ascii) : bool :=
  let n := nat_of_ascii c in
  ((9 <=? n)%nat && (n <=? 13)%nat) || ((28 <=? n)%nat && (n <=? 32)%nat)
  || (n =? 133)%nat || (n =? 160)%nat.

Fixpoint lstrip (s : string) : string :=
  match s with
  | EmptyString => EmptyString
  | String c s' => if is_space c then lstrip s' else s
  end.

Fixpoint rstrip (s : string) : string :=
  match s with
  | EmptyString => EmptyString
  | String c s' =>
      match rstrip s' with
      | EmptyString => if is_space c then EmptyString else String c EmptyString
      | t => String c t
      end
  end.

(** [s.strip()] *)
Definition strip (s : string) : string := rstrip (lstrip s).

(** The rows of a table with their index labels; the table carries the
    default index [0 .. n-1], as [process_pdf] builds it. *)
Definition iterrows (df : list Ocr.Row) : list (nat * Ocr.Row) :=
  imap (λ i row, (i, row)) df.

(** The loop shared by [find_abstract] and [find_keywords].  [index] is
    the label of the row in the whole table, while [iloc] counts
    positions in [first_page_data]. *)
Fixpoint first_page_scan (search_string : string)
    (first_page_data rows : list (nat * Ocr.Row)) (block_nums : gset Z)
  : gset Z :=
  match rows with
  | [] => block_nums
  | (index, row) :: rest =>
      let normalized_text := lower (strip (Ocr.text row)) in
      if contains search_string normalized_text then
        let block_nums := {[Ocr.block_num row]} ∪ block_nums in
        if String.eqb normalized_text search_string then
          let next_index := (index + 1)%nat in
          if (next_index <? length first_page_data)%nat then
            match first_page_data !! next_index with
            | Some (_, next_row) => {[Ocr.block_num next_row]} ∪ block_nums
            | None => block_nums
            end
          else block_nums
        else block_nums
      else first_page_scan search_string first_page_data rest block_nums
  end.

Definition find_abstract (ocr_data : list Ocr.Row) : gset Z :=
  let search_string := "abstract" in
  let first_page_data :=
    filter (λ ir, Ocr.page_num ir.2 = 1) (iterrows ocr_data) in
  first_page_scan search_string first_page_data first_page_data ∅.

Definition find_keywords (ocr_data : list Ocr.Row) : gset Z :=
  let search_string := "keywords" in
  let first_page_data :=
    filter (λ ir, Ocr.page_num ir.2 = 1) (iterrows ocr_data) in
  first_page_scan search_string first_page_data first_page_data ∅.

(** ** pdf_segmentation.py *)

Module Seg.
(** One row of the segmentation table; [section] holds the
    [level], [label] and [index] columns, present on detected
    sections only. *)
Record Row : Set := mk {
  type_ : string;
  block_num : Z;
  page_num : Z;
  section : option (Z * string * string)
}.

Definition key (r : Row) : Z * Z := (block_num r, page_num r).
End Seg.

(** Order used by [sort_values(by=['page_num', 'block_num'])]. *)
Definition sort_le (a b : Seg.Row) : Prop :=
  Seg.page_num a < Seg.page_num b ∨
  (Seg.page_num a = Seg.page_num b ∧ Seg.block_num a ≤ Seg.block_num b).

Fixpoint sort_insert (r : Seg.Row) (l : list Seg.Row) : list Seg.Row :=
  match l with
  | [] => [r]
  | r' :: l' =>
      if decide (sort_le r r') then r :: l else r' :: sort_insert r l'
  end.

(** A stable sort: a row goes in front of the first later row that is
    not smaller. *)
Definition sort_values (df : list Seg.Row) : list Seg.Row :=
  foldr sort_insert [] df.

(** The rows collected by a pass, and [existing_entries]. *)
Definition pass_state : Type := list Seg.Row * gset (Z * Z).

(** [new.append({...}); existing_entries.add((block_num, page_num))] *)
Definition append_entry (ty : string) (block_num page_num : Z) (st : pass_state)
  : pass_state :=
  (st.1 ++ [Seg.mk ty block_num page_num None],
   {[(block_num, page_num)]} ∪ st.2).

(** Body of [for _, above_row in above_title_blocks.iterrows()]
    (lines 42-52). *)
Definition headline_row (page_num : Z) (st : pass_state) (above_row : Ocr.Row)
  : pass_state :=
  let block_num := Ocr.block_num above_row in
  if decide ((block_num, page_num) ∈ st.2) then st
  else append_entry "Headline" block_num page_num st.

(** Body of [for page_num in ocr_data['page_num'].unique()]
    (lines 38-52). *)
Definition headline_page (ocr_data : list Ocr.Row) (title_top : num)
    (st : pass_state) (page_num : Z) : pass_state :=
  let above_title_blocks :=
    filter (λ r, Ocr.page_num r = page_num ∧ lt_num (Ocr.top r) title_top)
           ocr_data in
  foldl (headline_row page_num) st above_title_blocks.

(** Body of [for _, row in segmentation_df.iterrows()] (lines 26-52). *)
Definition headline_title (ocr_data : list Ocr.Row) (st : pass_state)
    (row : Seg.Row) : pass_state :=
  if decide (Seg.type_ row = "Title") then
    let title_block_num := Seg.block_num row in
    let title_page_num := Seg.page_num row in
    let title_bbox := calculate_bbox ocr_data title_block_num title_page_num in
    if truthy title_bbox then
      let title_top := bbox_top title_bbox in
      foldl (headline_page ocr_data title_top) st
            (unique (map Ocr.page_num ocr_data))
    else st
  else st.

(** The Headline loop; returns [new_headlines] and the updated
    [existing_entries]. *)
Definition headline_pass (segmentation_df : list Seg.Row)
    (ocr_data : list Ocr.Row) (existing_entries : gset (Z * Z)) : pass_state :=
  foldl (headline_title ocr_data) ([], existing_entries) segmentation_df.

(** [title_block_num] and [next_block_num] as bound before the Author
    loop (lines 59-66); without a Title row [title_block_num] is [None] and
    [next_block_num] stays unbound (it is never read: the comparison
    with [None] raises first). *)
Definition author_bounds (segmentation_df : list Seg.Row) : option Z * num :=
  let title_row := filter (λ r, Seg.type_ r = "Title") segmentation_df in
  match title_row with
  | t :: _ =>
      let title_block_num := Seg.block_num t in
      let next_block_num :=
        series_min (map Seg.block_num
          (filter (λ r, Seg.page_num r = 1 ∧ Seg.block_num r ≠ title_block_num)
                  segmentation_df)) in
      (Some title_block_num, next_block_num)
  | [] => (None, NaN)
  end.

(** Body of the Author loop (lines 68-81).  [page_num == 1 and
    title_block_num < block_num < next_block_num] evaluates left to
    right, so [None < block_num] is reached on page 1 only. *)
Definition author_row (title_block_num : option Z) (next_block_num : num)
    (st : pass_state) (row : Ocr.Row) : result pass_state :=
  let block_num := Ocr.block_num row in
  let page_num := Ocr.page_num row in
  if decide ((block_num, page_num) ∈ st.2) then Ok st
  else if decide (page_num = 1) then
    match title_block_num with
    | None => Raise TypeError
    | Some title_block_num =>
        if bool_decide (title_block_num < block_num)
           && lt_num block_num next_block_num
        then Ok (append_entry "Author" block_num page_num st)
        else Ok st
    end
  else Ok st.

(** Body of the inner Section loop (lines 96-108). *)
Definition section_row (current_block_num next_block_num : Z)
    (st : pass_state) (row : Ocr.Row) : pass_state :=
  let block_num := Ocr.block_num row in
  let page_num := Ocr.page_num row in
  if decide ((block_num, page_num) ∈ st.2) then st
  else if bool_decide (current_block_num < block_num)
          && bool_decide (block_num < next_block_num)
  then append_entry "Section" block_num page_num st
  else st.

(** Body of [for i in range(len(sections) - 1)] for the pair
    [(sections.iloc[i], sections.iloc[i + 1])]. *)
Definition section_pair (ocr_rows : list Ocr.Row) (st : pass_state)
    (pair : Seg.Row * Seg.Row) : pass_state :=
  let current_block_num := Seg.block_num pair.1 in
  let next_block_num := Seg.block_num pair.2 in
  foldl (section_row current_block_num next_block_num) st ocr_rows.

Definition process_segmentation (segmentation_df : list Seg.Row)
    (ocr_data : list Ocr.Row) : result (list Seg.Row) :=
  let existing_entries : gset (Z * Z) :=
    list_to_set (map Seg.key segmentation_df) in
  let '(new_headlines, existing_entries) :=
    headline_pass segmentation_df ocr_data existing_entries in
  let segmentation_df := segmentation_df ++ new_headlines in
  let '(title_block_num, next_block_num) := author_bounds segmentation_df in
  let ocr_rows := first_by Ocr.key ∅ ocr_data in
  st ←! for_each (author_row title_block_num next_block_num) ocr_rows
                 ([], existing_entries);
  let '(new_authors, existing_entries) := st in
  let sections := filter (λ r, Seg.type_ r = "Section") segmentation_df in
  let '(new_sections, existing_entries) :=
    foldl (section_pair ocr_rows) ([], existing_entries)
          (zip sections (tail sections)) in
  let segmentation_df := segmentation_df ++ new_authors in
  let segmentation_df := segmentation_df ++ new_sections in
  Ok (sort_values segmentation_df).

(** [st'] is [st] after a pass has gone through the candidates [cand]:
    the rows [added] are of type [ty], carry no section columns, have
    pairwise distinct keys that were not in [existing_entries], and
    cover every candidate that was not. *)
Definition adds (ty : string) (cand : Z * Z → Prop) (st st' : pass_state) : Prop :=
  ∃ added : list Seg.Row,
    st'.1 = st.1 ++ added ∧
    st'.2 = list_to_set (map Seg.key added) ∪ st.2 ∧
    NoDup (map Seg.key added) ∧
    (∀ r, r ∈ added →
       r = Seg.mk ty (Seg.block_num r) (Seg.page_num r) None ∧
       (Seg.key r ∉ st.2) ∧ cand (Seg.key r)) ∧
    (∀ k, cand k → k ∉ st.2 → k ∈ map Seg.key added).

(** The shape every index of a well-formed outline has: it starts and
    ends with a digit, and below level 1 it has at least three
    characters. *)
Definition index_ok (i : Outline.Indexed) : Prop :=
  (∃ c n, str_first (Outline.index i) = Ok c ∧ py_int_char c = Ok n) ∧
  (∃ c n, str_last (Outline.index i) = Ok c ∧ py_int_char c = Ok n) ∧
  (2 ≤ Outline.level (Outline.entry i) →
   (3 ≤ String.length (Outline.index i))%nat).

(** The [index] column of an indexed outline. *)
Definition indices (r : result (list Outline.Indexed)) : result (list string) :=
  l ←! r; Ok (map Outline.index l).

(** The round trip of the specification: pixel rectangle to padded
    points ([extract_text_from_bbox]) and back ([convert_bbox_to_pixels]). *)
Definition roundtrip (r : bbox Q) (W H : Q) : bbox Q :=
  convert_bbox_to_pixels (extract_text_from_bbox_rect r W H) W H.

Definition bbox_width (r : bbox Q) : Q := let '(x0, _, x1, _) := r in (x1 - x0)%Q.
Definition bbox_height (r : bbox Q) : Q := let '(_, top, _, bottom) := r in (bottom - top)%Q.

(** * Properties *)

(** ** Coordinates and overlap ([bbox.py]) *)

Lemma Qltb_lt (a b : Q) : Qltb a b = true ↔ (a < b)%Q.
Proof.
  unfold Qltb. rewrite Qlt_alt.
  destruct (a ?= b)%Q; split; congruence.
Qed.

Lemma Qltb_irrefl (a : Q) : Qltb a a = false.
Proof.
  destruct (Qltb a a) eqn:E; [|done].
  apply Qltb_lt, Qlt_irrefl in E. done.
Qed.

(** C6. The overlap test used by [get_table_block_nums] is the
    open-interval test
    [a.x0 < b.x1 ∧ a.x1 > b.x0 ∧ a.top < b.bottom ∧ a.bottom > b.top];
    it is symmetric, the disjoint rectangles (0,0,10,10) and
    (20,20,30,30) do not overlap, and neither do the rectangles
    (0,0,10,10) and (10,0,20,10), which touch on an edge. *)
Theorem overlaps_open_interval :
  (∀ ax0 atop ax1 abottom bx0 btop bx1 bbottom : Q,
      overlaps (ax0, atop, ax1, abottom) (bx0, btop, bx1, bbottom) = true ↔
      (ax0 < bx1 ∧ ax1 > bx0 ∧ atop < bbottom ∧ abottom > btop)%Q) ∧
  (∀ a b : bbox Q, overlaps a b = overlaps b a) ∧
  overlaps (0, 0, 10, 10)%Q (20, 20, 30, 30)%Q = false ∧
  overlaps (20, 20, 30, 30)%Q (0, 0, 10, 10)%Q = false ∧
  overlaps (0, 0, 10, 10)%Q (10, 0, 20, 10)%Q = false ∧
  overlaps (10, 0, 20, 10)%Q (0, 0, 10, 10)%Q = false.
Proof.
  split; [|split; [|by vm_compute]].
  - intros. unfold overlaps.
    rewrite !andb_true_iff, !Qltb_lt. tauto.
  - intros [[[ax0 atop] ax1] abottom] [[[bx0 btop] bx1] bbottom].
    unfold overlaps.
    destruct (Qltb ax0 bx1), (Qltb bx0 ax1), (Qltb atop bbottom),
      (Qltb btop abottom); reflexivity.
Qed.

(** Every word of the page whose box overlaps the target contributes its
    block to [get_table_block_nums]. *)
Lemma table_scan_mono rows target acc b :
  b ∈ acc → b ∈ table_scan rows target acc.
Proof.
  revert acc. induction rows as [|row rest IH]; intros acc Hb; [done|].
  cbn [table_scan]. apply IH.
  destruct (overlaps (word_bbox row) target); [|done].
  destruct rest as [|next_row ?]; [set_solver|].
  destruct (contains "Table" (Ocr.text next_row)); set_solver.
Qed.

Lemma get_table_block_nums_overlap ocr_data target page_num row :
  row ∈ ocr_data → Ocr.page_num row = page_num + 1 →
  overlaps (word_bbox row) target = true →
  Ocr.block_num row ∈ get_table_block_nums ocr_data target page_num.
Proof.
  intros Hin Hp Ho. unfold get_table_block_nums.
  assert (Hf : row ∈ filter (λ r, Ocr.page_num r = page_num + 1) ocr_data)
    by (apply list_elem_of_filter; done).
  generalize (∅ : gset Z).
  induction Hf as [row rest|row r' rest _ IH]; intros acc; cbn [table_scan].
  - rewrite Ho. apply table_scan_mono.
    destruct rest as [|next_row ?]; [set_solver|].
    destruct (contains "Table" (Ocr.text next_row)); set_solver.
  - by apply IH.
Qed.

(** C7. [get_figure_block_nums] looks at the records of the page in
    order and inspects only the first one whose top lies strictly below
    the target's bottom: the result is the singleton of its block when
    its text contains "Figure" and empty otherwise; in all cases it has
    at most one element. *)
Theorem get_figure_block_nums_first_below
    (ocr_data : list Ocr.Row) (x0 top x1 bottom_target : Q) (page_num : Z) :
  let page_rows := filter (λ r, Ocr.page_num r = page_num + 1) ocr_data in
  let found := get_figure_block_nums ocr_data (x0, top, x1, bottom_target) page_num in
  found =
    match List.find (λ r, Qltb bottom_target (inject_Z (Ocr.top r))) page_rows with
    | Some row =>
        if contains "Figure" (Ocr.text row) then {[Ocr.block_num row]} else ∅
    | None => ∅
    end ∧
  (size found ≤ 1)%nat.
Proof.
  intros page_rows found. subst found. unfold get_figure_block_nums.
  fold page_rows. clearbody page_rows.
  induction page_rows as [|row rest IH]; cbn [figure_scan List.find].
  - split; [done|]. rewrite size_empty. lia.
  - destruct (Qltb bottom_target (inject_Z (Ocr.top row))); [|exact IH].
    destruct (contains "Figure" (Ocr.text row)).
    + rewrite union_empty_r_L. split; [done|].
      rewrite size_singleton. lia.
    + split; [done|]. rewrite size_empty. lia.
Qed.

(** An empty selection makes every aggregate of [calculate_bbox] a
    [NaN], and the resulting tuple still passes the caller's
    [if title_bbox:] test. *)
Lemma calculate_bbox_no_match ocr_data block page :
  (∀ r, r ∈ ocr_data → Ocr.key r ≠ (block, page)) →
  calculate_bbox ocr_data block page = (NaN, NaN, NaN, NaN).
Proof.
  intros Hno. unfold calculate_bbox.
  assert (E : filter (λ r, Ocr.block_num r = block ∧ Ocr.page_num r = page)
                ocr_data = []).
  { induction ocr_data as [|r l IH]; [done|].
    rewrite filter_cons. destruct (decide _) as [[Hb Hp]|_].
    - exfalso. apply (Hno r); [left|]. unfold Ocr.key. by rewrite Hb, Hp.
    - apply IH. intros r' Hr'. apply Hno. by right. }
  by rewrite E.
Qed.

(** C8. On a key matched by no record, [calculate_bbox] does not fail:
    it returns the all-[NaN] tuple, which is truthy for its caller. *)
Theorem calculate_bbox_miss_returns_nan :
  let ocr_data := [Ocr.mk 1 0 100 200 50 20 "Title"] in
  calculate_bbox ocr_data 5 1 = (NaN, NaN, NaN, NaN) ∧
  truthy (calculate_bbox ocr_data 5 1) = true.
Proof. by vm_compute. Qed.

(** C9, as stated, fails: on a page 827 points wide the round trip
    widens a rectangle by 12 pixels horizontally, not by twice the
    padding. *)
Lemma roundtrip_widening_not_twice_padding :
  ¬ (∀ (r : bbox Q) (W H : Q), (0 < W)%Q → (0 < H)%Q →
       (bbox_width (roundtrip r W H) == bbox_width r + 2 * padding)%Q ∧
       (bbox_height (roundtrip r W H) == bbox_height r + 2 * padding)%Q).
Proof.
  intros Hall.
  destruct (Hall (0, 0, 10, 10)%Q 827%Q 2339%Q) as [Hw _]; [done..|].
  vm_compute in Hw. discriminate Hw.
Qed.

(** C9, amended. The round trip moves every side outward by the padding
    expressed in pixels, that is [padding * 1654 / W] horizontally and
    [padding * 2339 / H] vertically; the rectangle widens by twice that
    amount per axis, which is twice the padding once measured in
    points. *)
Theorem roundtrip_scaled_padding (x0 top x1 bottom W H : Q) :
  (0 < W)%Q → (0 < H)%Q →
  let px := (padding * (ocr_page_width / W))%Q in
  let py := (padding * (ocr_page_height / H))%Q in
  let '(x0', top', x1', bottom') := roundtrip (x0, top, x1, bottom) W H in
  (x0' == x0 - px ∧ top' == top - py ∧ x1' == x1 + px ∧ bottom' == bottom + py)%Q ∧
  (bbox_width (roundtrip (x0, top, x1, bottom) W H)
     == bbox_width (x0, top, x1, bottom) + 2 * px)%Q ∧
  (bbox_height (roundtrip (x0, top, x1, bottom) W H)
     == bbox_height (x0, top, x1, bottom) + 2 * py)%Q ∧
  ((bbox_width (roundtrip (x0, top, x1, bottom) W H)
      - bbox_width (x0, top, x1, bottom)) * (W / ocr_page_width)
     == 2 * padding)%Q ∧
  ((bbox_height (roundtrip (x0, top, x1, bottom) W H)
      - bbox_height (x0, top, x1, bottom)) * (H / ocr_page_height)
     == 2 * padding)%Q.
Proof.
  intros HW HH.
  assert (¬ (W == 0)%Q) by (intros E; rewrite E in HW; by apply Qlt_irrefl in HW).
  assert (¬ (H == 0)%Q) by (intros E; rewrite E in HH; by apply Qlt_irrefl in HH).
  unfold roundtrip, extract_text_from_bbox_rect, convert_bbox_to_pixels,
    bbox_width, bbox_height, ocr_page_width, ocr_page_height, padding.
  cbv zeta.
  repeat split; field; done.
Qed.

Lemma roundtrip_scaled_padding_witness :
  let '(x0', top', x1', bottom') := roundtrip (0, 0, 10, 10)%Q 827 2339 in
  (x0' == -6 ∧ x1' == 16 ∧ top' == -3 ∧ bottom' == 13)%Q.
Proof.
  pose proof (roundtrip_scaled_padding 0 0 10 10 827 2339) as P.
  vm_compute in P. vm_compute.
  destruct P as [(? & ? & ? & ?) _]; done.
Defined.

(** ** Outline indices ([utils.py]) *)

(** The example of the specification: [["1", "1.1", "2"]]. *)
Lemma get_index_example :
  get_index [Outline.mk 1 "Intro" 1; Outline.mk 2 "Background" 1;
             Outline.mk 1 "Method" 2] =
  Ok [Outline.mkI (Outline.mk 1 "Intro" 1) "1";
      Outline.mkI (Outline.mk 2 "Background" 1) "1.1";
      Outline.mkI (Outline.mk 1 "Method" 2) "2"].
Proof. reflexivity. Qed.

(** C5. A level-1 entry takes its number from the first character of
    the previous index, not from its first dotted component: after ten
    chapters and two subsections the previous index is "10.2", and the
    next chapter is numbered "2" where the specification asks for "11". *)
Theorem get_index_level1_after_10_2 :
  let chapter := Outline.mk 1 "Chapter" 1 in
  let subsection := Outline.mk 2 "Subsection" 1 in
  indices (get_index (replicate 10 chapter ++ [subsection; subsection; chapter])) =
  Ok ["1"; "2"; "3"; "4"; "5"; "6"; "7"; "8"; "9"; "10"; "10.1"; "10.2"; "2"].
Proof. reflexivity. Qed.

(** The same slip in the last branch: an index that starts out of shape
    makes a later level-1 entry raise. *)
Lemma get_index_can_raise :
  get_index [Outline.mk 2 "a" 1; Outline.mk 2 "b" 1; Outline.mk 1 "c" 2] =
  Raise ValueError.
Proof. reflexivity. Qed.

(** ** Lists, aggregates and first occurrences *)

Lemma elem_of_map {A B} (f : A → B) (l : list A) (y : B) :
  y ∈ map f l ↔ ∃ x, y = f x ∧ x ∈ l.
Proof. exact (list_elem_of_fmap f l y). Qed.

Lemma foldl_min_le (l : list Z) (x : Z) :
  foldl Z.min x l ≤ x ∧ ∀ y, y ∈ l → foldl Z.min x l ≤ y.
Proof.
  revert x. induction l as [|a l IH]; intros x; simpl.
  - split; [lia|]. intros y Hy. by apply elem_of_nil in Hy.
  - destruct (IH (Z.min x a)) as [H1 H2]. split; [lia|].
    intros y [->|Hy]%elem_of_cons; [lia|by apply H2].
Qed.

Lemma foldl_min_elem (l : list Z) (x : Z) :
  foldl Z.min x l = x ∨ foldl Z.min x l ∈ l.
Proof.
  revert x. induction l as [|a l IH]; intros x; simpl; [by left|].
  destruct (IH (Z.min x a)) as [E|E].
  - rewrite E. destruct (Z.min_spec x a) as [[_ ->]|[_ ->]]; [by left|].
    right. by left.
  - right. by right.
Qed.

(** [Series.min()] of a non-empty column is its least element. *)
Lemma series_min_spec (l : list Z) (m : Z) :
  series_min l = Num m ↔ m ∈ l ∧ ∀ y, y ∈ l → m ≤ y.
Proof.
  destruct l as [|x l]; simpl.
  - split; [done|]. intros [H _]. by apply elem_of_nil in H.
  - destruct (foldl_min_le l x) as [H1 H2].
    destruct (foldl_min_elem l x) as [E|E].
    + split.
      * intros [= <-]. split; [rewrite E; by left|].
        intros y [->|Hy]%elem_of_cons; [done|by apply H2].
      * intros [Hm Hle]. f_equal.
        assert (m ≤ x) by (apply Hle; by left).
        apply elem_of_cons in Hm as [->|Hm]; [done|].
        specialize (H2 _ Hm). lia.
    + split.
      * intros [= <-]. split; [by right|].
        intros y [->|Hy]%elem_of_cons; [done|by apply H2].
      * intros [Hm Hle]. f_equal.
        assert (m ≤ foldl Z.min x l) by (apply Hle; by right).
        apply elem_of_cons in Hm as [->|Hm]; [lia|].
        specialize (H2 _ Hm). lia.
Qed.

Lemma series_min_nonempty (l : list Z) :
  l ≠ [] → ∃ m, series_min l = Num m.
Proof. destruct l; [done|]. simpl. eauto. Qed.

(** Some element lies below [t] exactly when the minimum does. *)
Lemma series_min_lt (l : list Z) (t : Z) :
  (∃ x, x ∈ l ∧ x < t) ↔ ∃ u, series_min l = Num u ∧ u < t.
Proof.
  split.
  - intros (x & Hx & Hlt).
    destruct (series_min_nonempty l) as [m Hm].
    { intros ->. by apply elem_of_nil in Hx. }
    exists m. split; [done|].
    apply series_min_spec in Hm as [_ Hle]. specialize (Hle _ Hx). lia.
  - intros (u & Hu & Hlt). apply series_min_spec in Hu as [Hu _]. eauto.
Qed.

Lemma lt_num_true (z : Z) (n : num) :
  lt_num z n = true ↔ ∃ m, n = Num m ∧ z < m.
Proof.
  destruct n as [m|]; simpl.
  - rewrite bool_decide_eq_true. split; [eauto|]. by intros (? & [= <-] & ?).
  - split; [done|]. by intros (? & ? & ?).
Qed.

Section first_by.
Context {A K : Type} `{Countable K} (key : A → K).

Lemma first_by_elem (seen : gset K) (l : list A) (x : A) :
  x ∈ first_by key seen l → x ∈ l ∧ key x ∉ seen.
Proof.
  revert seen. induction l as [|a l IH]; intros seen; simpl.
  - intros Hx. by apply elem_of_nil in Hx.
  - destruct (decide (key a ∈ seen)) as [Hin|Hnin].
    + intros [??]%IH. split; [by right|done].
    + intros [->|[??]%IH]%elem_of_cons; [split; [by left|done]|].
      split; [by right|set_solver].
Qed.

(** Every key of the table that was not seen keeps one row. *)
Lemma first_by_complete (seen : gset K) (l : list A) (x : A) :
  x ∈ l → key x ∉ seen → ∃ y, y ∈ first_by key seen l ∧ key y = key x.
Proof.
  revert seen. induction l as [|a l IH]; intros seen Hx Hseen; simpl.
  - by apply elem_of_nil in Hx.
  - destruct (decide (key a ∈ seen)) as [Hin|Hnin].
    + apply elem_of_cons in Hx as [->|Hx]; [done|].
      by apply IH.
    + destruct (decide (key x = key a)) as [E|NE].
      * exists a. split; [by left|done].
      * apply elem_of_cons in Hx as [->|Hx]; [done|].
        destruct (IH ({[key a]} ∪ seen) Hx) as (y & Hy & Ey); [set_solver|].
        exists y. split; [by right|done].
Qed.
End first_by.

Lemma elem_of_unique (l : list Z) (x : Z) : x ∈ unique l ↔ x ∈ l.
Proof.
  unfold unique. split.
  - intros Hx. by apply (first_by_elem id) in Hx as [? _].
  - intros Hx.
    destruct (first_by_complete id ∅ l x Hx) as (y & Hy & Ey); [set_solver|].
    simpl in Ey. by subst.
Qed.

(** ** The three passes add fresh keys only *)

Lemma adds_skip ty (cand : Z * Z → Prop) (st : pass_state) :
  (∀ k, cand k → k ∈ st.2) → adds ty cand st st.
Proof.
  intros Hc. exists []. rewrite app_nil_r. simpl.
  split; [done|]. split; [set_solver|]. split; [constructor|].
  split.
  - intros r Hr. by apply elem_of_nil in Hr.
  - intros k Hk Hn. destruct Hn. by apply Hc.
Qed.

Lemma adds_append ty (cand : Z * Z → Prop) (b p : Z) (st : pass_state) :
  (b, p) ∉ st.2 → cand (b, p) → (∀ k, cand k → k = (b, p)) →
  adds ty cand st (append_entry ty b p st).
Proof.
  intros Hn Hc Honly. exists [Seg.mk ty b p None]. simpl.
  split; [done|]. split; [set_solver|].
  split; [apply NoDup_singleton|]. split.
  - intros r ->%list_elem_of_singleton. done.
  - intros k ->%Honly _. by left.
Qed.

Lemma adds_trans ty (c1 c2 : Z * Z → Prop) (st1 st2 st3 : pass_state) :
  adds ty c1 st1 st2 → adds ty c2 st2 st3 →
  adds ty (λ k, c1 k ∨ c2 k) st1 st3.
Proof.
  intros (a1 & E1 & S1 & N1 & F1 & C1) (a2 & E2 & S2 & N2 & F2 & C2).
  exists (a1 ++ a2).
  split; [by rewrite E2, E1, app_assoc|].
  split; [rewrite S2, S1, map_app, list_to_set_app_L; set_solver|].
  split.
  { rewrite map_app. apply NoDup_app. split; [done|]. split; [|done].
    intros k Hk1 (r & -> & Hr)%elem_of_map.
    destruct (F2 r Hr) as (_ & Hn & _). apply Hn. rewrite S1.
    apply elem_of_union_l, elem_of_list_to_set. done. }
  split.
  - intros r [Hr|Hr]%elem_of_app.
    + destruct (F1 r Hr) as (? & ? & ?). auto.
    + destruct (F2 r Hr) as (? & Hn & ?). split; [done|].
      split; [|auto]. intros Hin. apply Hn. rewrite S1. set_solver.
  - intros k Hk Hn. rewrite map_app. apply elem_of_app.
    destruct (decide (k ∈ map Seg.key a1)) as [|Hn1]; [by left|].
    destruct Hk as [Hk|Hk]; [left; by apply C1|].
    right. apply C2; [done|]. rewrite S1. set_solver.
Qed.

Lemma adds_iff ty (c c' : Z * Z → Prop) (st st' : pass_state) :
  (∀ k, c k ↔ c' k) → adds ty c st st' → adds ty c' st st'.
Proof.
  intros Hcc (a & E & S & N & F & C). exists a.
  do 3 (split; [done|]). split.
  - intros r Hr. destruct (F r Hr) as (? & ? & ?).
    split; [done|]. split; [done|]. by apply Hcc.
  - intros k Hk. apply C. by apply Hcc.
Qed.

Lemma adds_foldl {A} ty (f : pass_state → A → pass_state)
    (c : A → Z * Z → Prop) (xs : list A) :
  (∀ st x, x ∈ xs → adds ty (c x) st (f st x)) →
  ∀ st, adds ty (λ k, ∃ x, x ∈ xs ∧ c x k) st (foldl f st xs).
Proof.
  induction xs as [|x xs IH]; intros Hf st; simpl.
  - apply adds_skip. intros k (x & Hx & _). by apply elem_of_nil in Hx.
  - eapply adds_iff; [|eapply adds_trans; [apply (Hf st x); by left|]].
    2:{ apply IH. intros st' y Hy. apply Hf. by right. }
    intros k. split.
    + intros [Hk|(y & Hy & Hk)]; [exists x|exists y]; split; try done;
        [by left|by right].
    + intros (y & [->|Hy]%elem_of_cons & Hk); [by left|right; eauto].
Qed.

Lemma adds_for_each {A} ty (f : pass_state → A → result pass_state)
    (c : A → Z * Z → Prop) (xs : list A) :
  (∀ st x st', x ∈ xs → f st x = Ok st' → adds ty (c x) st st') →
  ∀ st st', for_each f xs st = Ok st' →
            adds ty (λ k, ∃ x, x ∈ xs ∧ c x k) st st'.
Proof.
  induction xs as [|x xs IH]; intros Hf st st'; simpl.
  - intros [= <-]. apply adds_skip.
    intros k (x & Hx & _). by apply elem_of_nil in Hx.
  - destruct (f st x) as [st1|e] eqn:E1; simpl; [|done].
    intros E2.
    eapply adds_iff; [|eapply adds_trans; [apply (Hf st x st1); [by left|done]|]].
    2:{ apply IH; [|done]. intros ? y ? Hy. apply Hf. by right. }
    intros k. split.
    + intros [Hk|(y & Hy & Hk)]; [exists x|exists y]; split; try done;
        [by left|by right].
    + intros (y & [->|Hy]%elem_of_cons & Hk); [by left|right; eauto].
Qed.

Lemma headline_row_adds page_num st above_row :
  adds "Headline" (λ k, k = (Ocr.block_num above_row, page_num))
       st (headline_row page_num st above_row).
Proof.
  unfold headline_row. destruct (decide _) as [Hin|Hn].
  - apply adds_skip. by intros k ->.
  - by apply adds_append.
Qed.

Lemma headline_page_adds ocr_data title_top st page_num :
  adds "Headline"
       (λ k, k.2 = page_num ∧
             ∃ r, r ∈ ocr_data ∧ Ocr.key r = k ∧
                  lt_num (Ocr.top r) title_top = true)
       st (headline_page ocr_data title_top st page_num).
Proof.
  unfold headline_page.
  eapply adds_iff; [|apply adds_foldl; intros; apply headline_row_adds].
  intros k. simpl. split.
  - intros (r & [[Hp Hlt] Hr]%list_elem_of_filter & ->). simpl.
    split; [done|]. exists r. unfold Ocr.key. rewrite Hp.
    split; [done|]. split; [done|]. by apply Is_true_true.
  - intros (Hp & r & Hr & <- & Hlt). exists r. split.
    + apply list_elem_of_filter. split; [|done].
      split; [done|]. by apply Is_true_true.
    + unfold Ocr.key in *. simpl in Hp. by rewrite Hp.
Qed.

Lemma headline_title_adds ocr_data st row :
  adds "Headline"
       (λ k, Seg.type_ row = "Title" ∧
             ∃ r, r ∈ ocr_data ∧ Ocr.key r = k ∧
                  lt_num (Ocr.top r)
                    (bbox_top (calculate_bbox ocr_data (Seg.block_num row)
                                 (Seg.page_num row))) = true)
       st (headline_title ocr_data st row).
Proof.
  unfold headline_title. destruct (decide _) as [Ht|Hnt].
  - unfold truthy.
    eapply adds_iff; [|apply adds_foldl; intros; apply headline_page_adds].
    intros k. simpl. split.
    + intros (pg & _ & _ & Hr). done.
    + intros (_ & r & Hr & Hk & Hlt). exists k.2. split.
      * apply elem_of_unique, elem_of_map. exists r. by rewrite <- Hk.
      * split; [done|]. eauto.
  - apply adds_skip. by intros k [? _].
Qed.

(** What the Headline pass adds: the blocks, on any page, that have a
    word above the top of a Title row's bounding box. *)
Lemma headline_pass_adds segmentation_df ocr_data existing_entries :
  adds "Headline"
       (λ k, ∃ row, row ∈ segmentation_df ∧ Seg.type_ row = "Title" ∧
             ∃ r, r ∈ ocr_data ∧ Ocr.key r = k ∧
                  lt_num (Ocr.top r)
                    (bbox_top (calculate_bbox ocr_data (Seg.block_num row)
                                 (Seg.page_num row))) = true)
       ([], existing_entries)
       (headline_pass segmentation_df ocr_data existing_entries).
Proof.
  unfold headline_pass.
  eapply adds_iff; [|apply adds_foldl; intros; apply headline_title_adds].
  intros k. simpl. naive_solver.
Qed.

Lemma author_row_adds title_block_num next_block_num st row st' :
  author_row title_block_num next_block_num st row = Ok st' →
  adds "Author"
       (λ k, k = Ocr.key row ∧ k.2 = 1 ∧
             ∃ t, title_block_num = Some t ∧ t < k.1 ∧
                  lt_num k.1 next_block_num = true)
       st st'.
Proof.
  unfold author_row.
  destruct (decide _) as [Hin|Hn].
  { intros [= <-]. apply adds_skip. by intros k [-> _]. }
  destruct (decide (Ocr.page_num row = 1)) as [Hp|Hp].
  - destruct title_block_num as [t|]; [|done].
    destruct (bool_decide (t < Ocr.block_num row)) eqn:E1; simpl.
    + destruct (lt_num (Ocr.block_num row) next_block_num) eqn:E2.
      * intros [= <-]. apply bool_decide_eq_true in E1.
        apply adds_append; [done| |by intros k [-> _]].
        split; [done|]. split; [done|]. exists t. done.
      * intros [= <-]. apply adds_skip.
        intros k (-> & _ & t' & _ & _ & Hlt). simpl in Hlt. congruence.
    + intros [= <-]. apply adds_skip.
      intros k (-> & _ & t' & [= <-] & Hlt & _). simpl in Hlt.
      apply bool_decide_eq_false in E1. done.
  - intros [= <-]. apply adds_skip. by intros k (-> & ? & _).
Qed.

(** What the Author loop adds when it does not raise: the unclassified
    page-1 blocks strictly between [title_block_num] and
    [next_block_num]. *)
Lemma author_pass_adds title_block_num next_block_num rows st st' :
  for_each (author_row title_block_num next_block_num) rows st = Ok st' →
  adds "Author"
       (λ k, ∃ row, row ∈ rows ∧ k = Ocr.key row ∧ k.2 = 1 ∧
             ∃ t, title_block_num = Some t ∧ t < k.1 ∧
                  lt_num k.1 next_block_num = true)
       st st'.
Proof.
  apply adds_for_each. intros ? ? ? _. apply author_row_adds.
Qed.

Lemma section_row_adds current_block_num next_block_num st row :
  adds "Section"
       (λ k, k = Ocr.key row ∧ current_block_num < k.1 < next_block_num)
       st (section_row current_block_num next_block_num st row).
Proof.
  unfold section_row.
  destruct (decide _) as [Hin|Hn].
  { apply adds_skip. by intros k [-> _]. }
  destruct (bool_decide (current_block_num < _)) eqn:E1; simpl.
  - destruct (bool_decide (_ < next_block_num)) eqn:E2.
    + apply bool_decide_eq_true in E1, E2.
      apply adds_append; [done|done|by intros k [-> _]].
    + apply bool_decide_eq_false in E2. apply adds_skip.
      intros k (-> & _ & Hlt). done.
  - apply bool_decide_eq_false in E1. apply adds_skip.
    intros k (-> & Hlt & _). done.
Qed.

Lemma section_pass_adds ocr_rows pairs st :
  adds "Section"
       (λ k, ∃ pair, pair ∈ pairs ∧ ∃ r, r ∈ ocr_rows ∧ k = Ocr.key r ∧
             Seg.block_num pair.1 < k.1 < Seg.block_num pair.2)
       st (foldl (section_pair ocr_rows) st pairs).
Proof.
  apply adds_foldl. intros st' pair _. unfold section_pair.
  apply adds_foldl. intros. apply section_row_adds.
Qed.

Lemma adds_from_nil (ty : string) (c : Z * Z → Prop) (E E' : gset (Z * Z))
    (L : list Seg.Row) :
  adds ty c ([], E) (L, E') →
  E' = list_to_set (map Seg.key L) ∪ E ∧
  NoDup (map Seg.key L) ∧
  (∀ r, r ∈ L →
     r = Seg.mk ty (Seg.block_num r) (Seg.page_num r) None ∧
     (Seg.key r ∉ E) ∧ c (Seg.key r)) ∧
  (∀ k, c k → k ∉ E → k ∈ map Seg.key L).
Proof. intros (a & Ea & ?). simpl in Ea. subst a. done. Qed.

(** ** The final sort *)

Lemma sort_le_total (a b : Seg.Row) : sort_le a b ∨ sort_le b a.
Proof. unfold sort_le. lia. Qed.

Lemma sort_le_trans (a b c : Seg.Row) : sort_le a b → sort_le b c → sort_le a c.
Proof. unfold sort_le. lia. Qed.

Lemma sort_insert_perm (r : Seg.Row) (l : list Seg.Row) :
  sort_insert r l ≡ₚ r :: l.
Proof.
  induction l as [|a l IH]; simpl; [done|].
  destruct (decide (sort_le r a)); [done|].
  rewrite IH. apply perm_swap.
Qed.

Lemma sort_values_perm (l : list Seg.Row) : sort_values l ≡ₚ l.
Proof.
  induction l as [|a l IH]; simpl; [done|].
  by rewrite sort_insert_perm, IH.
Qed.

Lemma sort_insert_sorted (r : Seg.Row) (l : list Seg.Row) :
  StronglySorted sort_le l → StronglySorted sort_le (sort_insert r l).
Proof.
  induction 1 as [|a l Hs IH Ha]; simpl.
  - repeat constructor.
  - destruct (decide (sort_le r a)) as [Hra|Hnra].
    + constructor; [by constructor|].
      constructor; [done|].
      eapply Forall_impl; [exact Ha|]. intros b Hab. by eapply sort_le_trans.
    + constructor; [done|].
      rewrite sort_insert_perm. constructor; [|done].
      by destruct (sort_le_total r a).
Qed.

Lemma sort_values_sorted (l : list Seg.Row) :
  StronglySorted sort_le (sort_values l).
Proof.
  induction l as [|a l IH]; simpl; [constructor|].
  by apply sort_insert_sorted.
Qed.

(** ** Totality with a Title row, failure without one *)

Lemma for_each_author_some t n rows st :
  ∃ st', for_each (author_row (Some t) n) rows st = Ok st'.
Proof.
  revert st. induction rows as [|row rows IH]; intros st; simpl; [eauto|].
  unfold author_row at 1.
  destruct (decide _); simpl; [apply IH|].
  destruct (decide _); simpl; [|apply IH].
  destruct (_ && _); simpl; apply IH.
Qed.

Lemma author_bounds_title segmentation_df :
  (∃ r, r ∈ segmentation_df ∧ Seg.type_ r = "Title") →
  ∃ t n, author_bounds segmentation_df = (Some t, n).
Proof.
  intros (r & Hr & Ht). unfold author_bounds.
  destruct (filter _ segmentation_df) as [|t l] eqn:E; [|eauto].
  assert (Hf : r ∈ filter (λ r, Seg.type_ r = "Title") segmentation_df)
    by (by apply list_elem_of_filter).
  rewrite E in Hf. by apply elem_of_nil in Hf.
Qed.

Lemma author_bounds_no_title segmentation_df :
  (∀ r, r ∈ segmentation_df → Seg.type_ r ≠ "Title") →
  author_bounds segmentation_df = (None, NaN).
Proof.
  intros Hno. unfold author_bounds.
  destruct (filter _ segmentation_df) as [|t l] eqn:E; [done|].
  assert (Hf : t ∈ filter (λ r, Seg.type_ r = "Title") segmentation_df)
    by (rewrite E; by left).
  apply list_elem_of_filter in Hf as [Ht Hin]. by destruct (Hno t Hin).
Qed.

Lemma headline_pass_no_title segmentation_df ocr_data existing_entries :
  (∀ r, r ∈ segmentation_df → Seg.type_ r ≠ "Title") →
  headline_pass segmentation_df ocr_data existing_entries = ([], existing_entries).
Proof.
  unfold headline_pass. generalize ([] : list Seg.Row).
  induction segmentation_df as [|row l IH]; intros acc Hno; simpl; [done|].
  unfold headline_title at 2.
  destruct (decide _) as [Ht|_].
  - destruct (Hno row); [by left|done].
  - apply IH. intros r Hr. apply Hno. by right.
Qed.

(** Without a title block number the Author loop raises at the first
    unclassified block of page 1. *)
Lemma for_each_author_none n rows st :
  (∃ o, o ∈ rows ∧ Ocr.page_num o = 1 ∧ Ocr.key o ∉ st.2) →
  for_each (author_row None n) rows st = Raise TypeError.
Proof.
  induction rows as [|row rows IH]; intros (o & Ho & Hp & Hk); simpl.
  - by apply elem_of_nil in Ho.
  - unfold author_row at 1. fold (Ocr.key row).
    destruct (decide (Ocr.key row ∈ st.2)) as [Hin|Hnin]; simpl.
    + apply IH. exists o. split; [|done].
      apply elem_of_cons in Ho as [->|Ho]; done.
    + destruct (decide (Ocr.page_num row = 1)) as [|Hne]; simpl; [done|].
      apply IH. exists o. split; [|done].
      apply elem_of_cons in Ho as [->|Ho]; done.
Qed.

(** ** The augmented table *)

(** The table before sorting, with what each pass contributed. *)
Lemma process_segmentation_Ok segmentation_df ocr_data out :
  process_segmentation segmentation_df ocr_data = Ok out →
  ∃ (H A S : list Seg.Row) (cH cA cS : Z * Z → Prop) (E1 E2 E3 : gset (Z * Z)),
    let E0 : gset (Z * Z) := list_to_set (map Seg.key segmentation_df) in
    out = sort_values (((segmentation_df ++ H) ++ A) ++ S) ∧
    adds "Headline" cH ([], E0) (H, E1) ∧
    adds "Author" cA ([], E1) (A, E2) ∧
    adds "Section" cS ([], E2) (S, E3).
Proof.
  unfold process_segmentation.
  pose proof (headline_pass_adds segmentation_df ocr_data
                (list_to_set (map Seg.key segmentation_df))) as HH.
  destruct (headline_pass _ _ _) as [H E1].
  destruct (author_bounds _) as [t n].
  destruct (for_each _ _ _) as [[A E2]|e] eqn:EA; simpl; [|done].
  apply author_pass_adds in EA.
  match goal with
  | |- context [foldl (section_pair ?rows) ?st ?pairs] =>
      pose proof (section_pass_adds rows pairs st) as HS;
      destruct (foldl (section_pair rows) st pairs) as [S E3]
  end.
  intros [= <-]. exists H, A, S. do 3 eexists. exists E1, E2, E3.
  cbv zeta. split; [reflexivity|]. split; [exact HH|]. split; [exact EA|exact HS].
Qed.

(** C1. When the keys of the sparse table are unique, the table
    returned by [process_segmentation] keeps every input row (hence
    every input key), has no duplicate key, has at least as many rows
    as the input, and is sorted by (page_num, block_num).  A table is
    returned whenever the input has a Title row. *)
Theorem process_segmentation_keys
    (segmentation_df : list Seg.Row) (ocr_data : list Ocr.Row) :
  NoDup (map Seg.key segmentation_df) →
  ((∃ r, r ∈ segmentation_df ∧ Seg.type_ r = "Title") →
   ∃ out, process_segmentation segmentation_df ocr_data = Ok out) ∧
  ∀ out, process_segmentation segmentation_df ocr_data = Ok out →
    (∀ r, r ∈ segmentation_df → r ∈ out) ∧
    (∀ k, k ∈ map Seg.key segmentation_df → k ∈ map Seg.key out) ∧
    NoDup (map Seg.key out) ∧
    (length segmentation_df ≤ length out)%nat ∧
    StronglySorted sort_le out.
Proof.
  intros Hnd. split.
  - intros Ht. unfold process_segmentation.
    destruct (headline_pass _ _ _) as [H E1].
    destruct (author_bounds_title (segmentation_df ++ H)) as (t & n & ->).
    { destruct Ht as (r & Hr & Hty). exists r. split; [|done].
      apply elem_of_app. by left. }
    destruct (for_each_author_some t n (first_by Ocr.key ∅ ocr_data) ([], E1))
      as [[A E2] ->].
    simpl. destruct (foldl _ _ _) as [S E3]. eauto.
  - intros out (H & A & S & cH & cA & cS & E1 & E2 & E3 & -> & HH & HA & HS)
      %process_segmentation_Ok.
    apply adds_from_nil in HH as (-> & NH & FH & _).
    apply adds_from_nil in HA as (-> & NA & FA & _).
    apply adds_from_nil in HS as (_ & NS & FS & _).
    set (all := ((segmentation_df ++ H) ++ A) ++ S).
    pose proof (sort_values_perm all) as Hp.
    assert (Hin : ∀ r, r ∈ segmentation_df → r ∈ sort_values all).
    { intros r Hr. rewrite Hp. subst all. rewrite !elem_of_app. auto. }
    split; [done|]. split.
    { intros k (r & -> & Hr)%elem_of_map. apply elem_of_map. eauto. }
    split.
    { change (map Seg.key (sort_values all)) with (Seg.key <$> sort_values all).
      rewrite Hp. change (Seg.key <$> all) with (map Seg.key all).
      subst all. rewrite !map_app.
      repeat (apply NoDup_app; split; [|split]); try done.
      - intros k Hk (r & -> & Hr)%elem_of_map.
        destruct (FH r Hr) as (_ & Hn & _). apply Hn.
        by apply elem_of_list_to_set.
      - intros k Hk (r & -> & Hr)%elem_of_map.
        destruct (FA r Hr) as (_ & Hn & _). apply Hn.
        apply elem_of_app in Hk. rewrite elem_of_union, !elem_of_list_to_set.
        tauto.
      - intros k Hk (r & -> & Hr)%elem_of_map.
        destruct (FS r Hr) as (_ & Hn & _). apply Hn.
        rewrite !elem_of_app in Hk.
        rewrite !elem_of_union, !elem_of_list_to_set. tauto. }
    split.
    { rewrite Hp. subst all. rewrite !length_app. lia. }
    apply sort_values_sorted.
Qed.

Lemma process_segmentation_keys_witness :
  ∃ out,
    process_segmentation
      [Seg.mk "Title" 0 1 None; Seg.mk "Abstract" 2 1 None]
      [Ocr.mk 1 0 100 100 300 40 "Title"; Ocr.mk 1 0 420 100 200 40 "Text";
       Ocr.mk 1 1 150 200 250 30 "Author"; Ocr.mk 1 2 100 300 90 30 "Abstract"]
    = Ok out ∧ NoDup (map Seg.key out) ∧ StronglySorted sort_le out.
Proof.
  edestruct (process_segmentation_keys
    [Seg.mk "Title" 0 1 None; Seg.mk "Abstract" 2 1 None]
    [Ocr.mk 1 0 100 100 300 40 "Title"; Ocr.mk 1 0 420 100 200 40 "Text";
     Ocr.mk 1 1 150 200 250 30 "Author"; Ocr.mk 1 2 100 300 90 30 "Abstract"])
    as [Htot Hprop].
  - repeat constructor; set_solver.
  - destruct Htot as [out Hout].
    + eexists. split; [left|reflexivity].
    + exists out. destruct (Hprop out Hout) as (_ & _ & ? & _ & ?). done.
Defined.

(** C10. Without a Title row, an OCR block of page 1 that the sparse
    table does not classify makes [process_segmentation] raise: the
    guard of the Author pass compares [None] with the block number. *)
Theorem process_segmentation_no_title
    (segmentation_df : list Seg.Row) (ocr_data : list Ocr.Row) :
  (∀ r, r ∈ segmentation_df → Seg.type_ r ≠ "Title") →
  (∃ o, o ∈ ocr_data ∧ Ocr.page_num o = 1 ∧
        Ocr.key o ∉ map Seg.key segmentation_df) →
  process_segmentation segmentation_df ocr_data = Raise TypeError ∧
  ¬ ∃ out, process_segmentation segmentation_df ocr_data = Ok out.
Proof.
  intros Hno (o & Ho & Hp & Hk).
  assert (E : process_segmentation segmentation_df ocr_data = Raise TypeError).
  { unfold process_segmentation.
    rewrite headline_pass_no_title by done.
    rewrite app_nil_r, author_bounds_no_title by done.
    rewrite for_each_author_none; [done|].
    destruct (first_by_complete Ocr.key ∅ ocr_data o Ho) as (o' & Ho' & Ek);
      [set_solver|].
    exists o'. split; [done|]. split.
    - unfold Ocr.key in Ek. by injection Ek as _ ->.
    - simpl. rewrite Ek, elem_of_list_to_set. done. }
  split; [done|]. intros [out Hout]. congruence.
Qed.

Lemma process_segmentation_no_title_witness :
  process_segmentation
    [Seg.mk "Abstract" 3 1 None]
    [Ocr.mk 1 0 100 10 300 40 "arXiv"; Ocr.mk 1 3 100 300 90 30 "Abstract"]
  = Raise TypeError.
Proof.
  apply process_segmentation_no_title.
  - intros r ->%list_elem_of_singleton. done.
  - exists (Ocr.mk 1 0 100 10 300 40 "arXiv").
    split; [left|]. split; [reflexivity|].
    simpl. intros ?%list_elem_of_singleton. done.
Defined.

(** ** The Author pass *)

(** The scenario of the specification: blocks 0, 1, 2 on one page, Title
    at block 0 and Abstract at block 2; block 1 becomes Author. *)
Lemma author_pass_scenario :
  process_segmentation
    [Seg.mk "Title" 0 1 None; Seg.mk "Abstract" 2 1 None]
    [Ocr.mk 1 0 100 100 300 40 "Title"; Ocr.mk 1 0 420 100 200 40 "Text";
     Ocr.mk 1 1 150 200 250 30 "Author"; Ocr.mk 1 1 420 200 250 30 "Name";
     Ocr.mk 1 2 100 300 90 30 "Abstract:"]
  = Ok [Seg.mk "Title" 0 1 None; Seg.mk "Author" 1 1 None;
        Seg.mk "Abstract" 2 1 None].
Proof. by vm_compute. Qed.

(** [next_block_num] is the least classified page-1 block number above
    the title's as long as no classified page-1 block lies below the
    title. *)
Lemma author_bounds_above segmentation_df t rest :
  filter (λ r, Seg.type_ r = "Title") segmentation_df = t :: rest →
  (∀ r, r ∈ segmentation_df → Seg.page_num r = 1 →
        Seg.block_num r ≠ Seg.block_num t → Seg.block_num t < Seg.block_num r) →
  author_bounds segmentation_df =
    (Some (Seg.block_num t),
     series_min (map Seg.block_num
       (filter (λ r, Seg.page_num r = 1 ∧ Seg.block_num t < Seg.block_num r)
               segmentation_df))).
Proof.
  intros Et Habove. unfold author_bounds. rewrite Et. do 3 f_equal.
  clear Et. induction segmentation_df as [|r l IH]; [done|].
  rewrite !filter_cons, IH by (intros r' Hr'; apply Habove; by right).
  specialize (Habove r (list_elem_of_here r l)).
  destruct (decide (_ ∧ _ ≠ _)) as [[Hp Hne]|Hn];
    destruct (decide (_ ∧ _ < _)) as [[Hp' Hlt]|Hn']; try done.
  - destruct Hn'. split; [done|by apply Habove].
  - destruct Hn. split; [done|lia].
Qed.

(** C3. [next_block_num] is the least classified page-1 block number
    other than the title's, not the least one above it.  With a running
    header (block 0) above the title (block 1), the Headline pass
    classifies block 0, [next_block_num] becomes 0, and block 2, which
    lies between the title and the abstract (block 3), is not added as
    Author. *)
Theorem author_pass_next_block_below_title :
  let segmentation_df :=
    [Seg.mk "Title" 1 1 None; Seg.mk "Abstract" 3 1 None] in
  let ocr_data :=
    [Ocr.mk 1 0 100 10 300 20 "arXiv"; Ocr.mk 1 1 100 100 300 40 "Title";
     Ocr.mk 1 2 150 200 250 30 "Author"; Ocr.mk 1 3 100 300 90 30 "Abstract"] in
  let new_headlines :=
    (headline_pass segmentation_df ocr_data
       (list_to_set (map Seg.key segmentation_df))).1 in
  new_headlines = [Seg.mk "Headline" 0 1 None] ∧
  author_bounds (segmentation_df ++ new_headlines) = (Some 1, Num 0) ∧
  process_segmentation segmentation_df ocr_data
    = Ok [Seg.mk "Headline" 0 1 None; Seg.mk "Title" 1 1 None;
          Seg.mk "Abstract" 3 1 None].
Proof. by vm_compute. Qed.

(** ** The Headline pass *)

Lemma block_top_lt ocr_data b p t :
  (∃ u, bbox_top (calculate_bbox ocr_data b p) = Num u ∧ u < t) ↔
  ∃ r, r ∈ ocr_data ∧ Ocr.key r = (b, p) ∧ Ocr.top r < t.
Proof.
  unfold calculate_bbox, bbox_top. rewrite <- series_min_lt. split.
  - intros (x & (r & -> & [[Hb Hp] Hr]%list_elem_of_filter)%elem_of_map & Hlt).
    exists r. unfold Ocr.key. by rewrite Hb, Hp.
  - intros (r & Hr & [= Hb Hp] & Hlt). exists (Ocr.top r). split; [|done].
    apply elem_of_map. exists r. split; [done|].
    by apply list_elem_of_filter.
Qed.

(** The bounding box of a block with at least one word has a top, the
    least top of its words. *)
Lemma block_top_defined ocr_data b p :
  (∃ o, o ∈ ocr_data ∧ Ocr.key o = (b, p)) →
  ∃ t, bbox_top (calculate_bbox ocr_data b p) = Num t ∧
       (∀ o, o ∈ ocr_data → Ocr.key o = (b, p) → t ≤ Ocr.top o) ∧
       ∃ o, o ∈ ocr_data ∧ Ocr.key o = (b, p) ∧ Ocr.top o = t.
Proof.
  intros (o & Ho & [= Hb Hp]). unfold calculate_bbox, bbox_top.
  set (block_data := filter _ ocr_data).
  assert (Hin : o ∈ block_data) by (by apply list_elem_of_filter).
  destruct (series_min_nonempty (map Ocr.top block_data)) as [t Ht].
  { destruct block_data; [by apply elem_of_nil in Hin|done]. }
  exists t. split; [done|].
  apply series_min_spec in Ht as [(r & -> & Hr)%elem_of_map Hle].
  split.
  - intros o' Ho' [= Hb' Hp']. apply Hle, elem_of_map. exists o'.
    split; [done|]. by apply list_elem_of_filter.
  - apply list_elem_of_filter in Hr as [[Hrb Hrp] Hr]. exists r.
    unfold Ocr.key. by rewrite Hrb, Hrp.
Qed.

(** C4. Let the Title rows of the sparse table all sit on one block
    [(tb, tp)] that has at least one OCR word, and let [t] be the top
    of that block's bounding box, the least top of its words.  Then the
    Headline pass adds rows of type Headline only, and a block [(b, p)]
    of any page is added exactly when it is not classified in the input
    and its bounding-box top is strictly less than [t]. *)
Theorem headline_pass_above_title
    (segmentation_df : list Seg.Row) (ocr_data : list Ocr.Row) (tb tp : Z) :
  (∃ row, row ∈ segmentation_df ∧ Seg.type_ row = "Title") →
  (∀ row, row ∈ segmentation_df → Seg.type_ row = "Title" →
          Seg.key row = (tb, tp)) →
  (∃ o, o ∈ ocr_data ∧ Ocr.key o = (tb, tp)) →
  ∃ t, bbox_top (calculate_bbox ocr_data tb tp) = Num t ∧
    (∀ o, o ∈ ocr_data → Ocr.key o = (tb, tp) → t ≤ Ocr.top o) ∧
    (∃ o, o ∈ ocr_data ∧ Ocr.key o = (tb, tp) ∧ Ocr.top o = t) ∧
    let new_headlines :=
      (headline_pass segmentation_df ocr_data
         (list_to_set (map Seg.key segmentation_df))).1 in
    (∀ r, r ∈ new_headlines →
          r = Seg.mk "Headline" (Seg.block_num r) (Seg.page_num r) None) ∧
    ∀ b p, (b, p) ∈ map Seg.key new_headlines ↔
           ((b, p) ∉ map Seg.key segmentation_df) ∧
           ∃ u, bbox_top (calculate_bbox ocr_data b p) = Num u ∧ u < t.
Proof.
  intros (trow & Htrow & Htype) Hkey Hmatch.
  destruct (block_top_defined ocr_data tb tp Hmatch) as (t & Ht & Hmin & Hex).
  exists t. do 3 (split; [done|]).
  pose proof (headline_pass_adds segmentation_df ocr_data
                (list_to_set (map Seg.key segmentation_df))) as HH.
  destruct (headline_pass _ _ _) as [H E1]. cbv zeta. cbn [fst].
  apply adds_from_nil in HH as (_ & _ & FH & CH).
  assert (Hc : ∀ k,
    (∃ row, row ∈ segmentation_df ∧ Seg.type_ row = "Title" ∧
       ∃ r, r ∈ ocr_data ∧ Ocr.key r = k ∧
            lt_num (Ocr.top r)
              (bbox_top (calculate_bbox ocr_data (Seg.block_num row)
                           (Seg.page_num row))) = true) ↔
    ∃ r, r ∈ ocr_data ∧ Ocr.key r = k ∧ Ocr.top r < t).
  { intros k. split.
    - intros (row & Hrow & Hty & r & Hr & Hk & Hlt).
      specialize (Hkey row Hrow Hty). injection Hkey as Eb Ep.
      rewrite Eb, Ep, Ht in Hlt. apply lt_num_true in Hlt as (m & [= <-] & Hlt).
      eauto.
    - intros (r & Hr & Hk & Hlt). exists trow.
      do 2 (split; [done|]). exists r. do 2 (split; [done|]).
      specialize (Hkey trow Htrow Htype). injection Hkey as Eb Ep.
      rewrite Eb, Ep, Ht. apply lt_num_true. eauto. }
  split.
  - intros r Hr. by destruct (FH r Hr).
  - intros b p. rewrite block_top_lt. split.
    + intros (r & Ek & Hr)%elem_of_map.
      destruct (FH r Hr) as (_ & Hn & Hcand). rewrite <- Ek in *.
      split.
      * intros Hin. apply Hn. by apply elem_of_list_to_set.
      * by apply Hc.
    + intros [Hn Hcand]. apply CH.
      * by apply Hc.
      * intros Hin. apply Hn. by apply elem_of_list_to_set in Hin.
Qed.

Lemma headline_pass_above_title_witness :
  let segmentation_df :=
    [Seg.mk "Title" 1 1 None; Seg.mk "Abstract" 3 1 None] in
  let ocr_data :=
    [Ocr.mk 1 0 100 10 300 20 "arXiv"; Ocr.mk 1 1 100 100 300 40 "Title";
     Ocr.mk 1 1 420 104 200 36 "Text"; Ocr.mk 2 0 100 10 300 20 "arXiv";
     Ocr.mk 1 3 100 300 90 30 "Abstract"] in
  bbox_top (calculate_bbox ocr_data 1 1) = Num 100 ∧
  (0, 2) ∈ map Seg.key
    (headline_pass segmentation_df ocr_data
       (list_to_set (map Seg.key segmentation_df))).1.
Proof.
  intros segmentation_df ocr_data.
  destruct (headline_pass_above_title segmentation_df ocr_data 1 1)
    as (t & Ht & _ & _ & _ & Hiff).
  - exists (Seg.mk "Title" 1 1 None). split; [left|reflexivity].
  - intros row [->|[->|[]%elem_of_nil]%elem_of_cons]%elem_of_cons;
      [reflexivity|discriminate].
  - exists (Ocr.mk 1 1 100 100 300 40 "Title"). split; [right; left|reflexivity].
  - split; [reflexivity|].
    apply Hiff. vm_compute in Ht. injection Ht as <-. split.
    + intros [[=]|[[=]|[]%elem_of_nil]%elem_of_cons]%elem_of_cons.
    + exists 10. split; [reflexivity|lia].
Defined.

(** ** Fuzzy block matching ([find_block_num]) *)

Lemma distance_refl (s : string) : distance s s = 0%nat.
Proof. induction s as [|a s IH]; simpl; [done|]. by rewrite Ascii.eqb_refl. Qed.

(** The distance vanishes on equal strings only. *)
Lemma distance_eq_0 (s t : string) : distance s t = 0%nat ↔ s = t.
Proof.
  split; [|intros ->; apply distance_refl].
  revert t. induction s as [|a s IH]; intros [|b t]; simpl; try done.
  destruct (Ascii.eqb a b) eqn:E; [|done].
  apply Ascii.eqb_eq in E as ->. intros ->%IH. done.
Qed.

Lemma group_lt_trans (a b c : Z * Z) : group_lt a b → group_lt b c → group_lt a c.
Proof. unfold group_lt. lia. Qed.

Lemma group_lt_total (a b : Z * Z) : a ≠ b → ¬ group_lt a b → group_lt b a.
Proof.
  destruct a as [a1 a2], b as [b1 b2]. unfold group_lt. simpl.
  intros Hne Hn.
  assert (a1 ≠ b1 ∨ a2 ≠ b2) as [|] by (destruct (decide (a1 = b1)); [right|left]; congruence);
    lia.
Qed.

Lemma elem_of_insert_key (k k' : Z * Z) (l : list (Z * Z)) :
  k' ∈ insert_key k l ↔ k' = k ∨ k' ∈ l.
Proof.
  induction l as [|a l IH]; simpl.
  - rewrite list_elem_of_singleton. set_solver.
  - destruct (decide (k = a)) as [->|Hne].
    + rewrite elem_of_cons. tauto.
    + destruct (decide (group_lt k a)).
      * rewrite elem_of_cons. tauto.
      * rewrite !elem_of_cons, IH. tauto.
Qed.

Lemma insert_key_sorted (k : Z * Z) (l : list (Z * Z)) :
  StronglySorted group_lt l → StronglySorted group_lt (insert_key k l).
Proof.
  induction 1 as [|a l Hs IH Ha]; simpl.
  - repeat constructor.
  - destruct (decide (k = a)) as [->|Hne]; [by constructor|].
    destruct (decide (group_lt k a)) as [Hlt|Hnlt].
    + constructor; [by constructor|]. constructor; [done|].
      eapply Forall_impl; [exact Ha|]. intros b Hab. by eapply group_lt_trans.
    + constructor; [done|]. apply Forall_forall.
      intros b [->|Hb]%elem_of_insert_key.
      * by apply group_lt_total.
      * rewrite Forall_forall in Ha. by apply Ha.
Qed.

(** [groupby] yields each key of the table once, in ascending order. *)
Lemma group_keys_spec (df : list Ocr.Row) :
  StronglySorted group_lt (group_keys df) ∧
  ∀ k, k ∈ group_keys df ↔ k ∈ map Ocr.key df.
Proof.
  unfold group_keys. induction (map Ocr.key df) as [|a l [IH1 IH2]]; simpl.
  - split; [constructor|done].
  - split; [by apply insert_key_sorted|].
    intros k. rewrite elem_of_insert_key, elem_of_cons, IH2. done.
Qed.

(** The loop keeps the first group of least distance. *)
Lemma best_row_fold (chars : string) (df : list Ocr.Row) (ks : list (Z * Z)) :
  let D k := distance chars (lower (group_text df k)) in
  let best := foldl (best_row chars) (None, None, None)
                    (map (λ k, (k.1, k.2, group_text df k)) ks) in
  (ks = [] ∧ best = (None, None, None)) ∨
  ∃ ks1 k ks2, ks = ks1 ++ k :: ks2 ∧
    best = (Some k.1, Some k.2, Some (D k)) ∧
    (∀ x, x ∈ ks1 → (D k < D x)%nat) ∧
    (∀ x, x ∈ ks2 → (D k ≤ D x)%nat).
Proof.
  intros D. induction ks as [|x ks IH] using rev_ind; cbv zeta.
  - left. done.
  - right. rewrite map_app, foldl_app. simpl.
    destruct IH as [[-> ->]|(ks1 & k & ks2 & -> & -> & H1 & H2)].
    + exists [], x, []. simpl. fold (D x).
      split; [done|]. split; [done|].
      split; intros y Hy; by apply elem_of_nil in Hy.
    + unfold best_row. simpl. fold (D x).
      destruct (bool_decide (D x < D k)%nat) eqn:E.
      * apply bool_decide_eq_true in E.
        exists (ks1 ++ k :: ks2), x, []. rewrite <- app_assoc. simpl.
        split; [done|]. split; [done|]. split.
        -- intros y [Hy|[->|Hy]%elem_of_cons]%elem_of_app; [|done|].
           ++ specialize (H1 y Hy). lia.
           ++ specialize (H2 y Hy). lia.
        -- intros y Hy. by apply elem_of_nil in Hy.
      * apply bool_decide_eq_false in E.
        exists ks1, k, (ks2 ++ [x]). rewrite <- app_assoc. simpl.
        split; [done|]. split; [done|]. split; [done|].
        intros y [Hy|Hy%list_elem_of_singleton]%elem_of_app;
          [by apply H2|subst y; lia].
Qed.

(** C2. On a non-empty table [find_block_num] returns the key of a
    group whose space-joined, lower-cased text has the least edit
    distance to the lower-cased query; among the groups at that
    distance it is the first in ascending (block_num, page_num) order;
    and when some group's text equals the query after lower-casing, the
    returned group is at distance 0. *)
Theorem find_block_num_minimal (chars : string) (df : list Ocr.Row) :
  df ≠ [] →
  let D k := distance (lower chars) (lower (group_text df k)) in
  ∃ b p, find_block_num chars df = Ok (Some b, Some p) ∧
    (b, p) ∈ map Ocr.key df ∧
    (∀ r, r ∈ df → (D (b, p) ≤ D (Ocr.key r))%nat) ∧
    (∀ r, r ∈ df → D (Ocr.key r) = D (b, p) → group_le (b, p) (Ocr.key r)) ∧
    ((∃ r, r ∈ df ∧ lower (group_text df (Ocr.key r)) = lower chars) →
     D (b, p) = 0%nat ∧ lower (group_text df (b, p)) = lower chars).
Proof.
  intros Hne D. subst D. cbv beta.
  set (D := λ k, distance (lower chars) (lower (group_text df k))).
  destruct (group_keys_spec df) as [Hsorted Hkeys].
  assert (E : find_block_num chars df =
              let '(block_num, page_num, _) :=
                foldl (best_row (lower chars)) (None, None, None)
                      (groupby_join df) in
              Ok (block_num, page_num)) by (by destruct df).
  rewrite E. unfold groupby_join.
  destruct (best_row_fold (lower chars) df (group_keys df))
    as [[Hnil _]|(ks1 & [b p] & ks2 & Hks & -> & H1 & H2)].
  { destruct df as [|r df]; [done|].
    assert (Ocr.key r ∈ group_keys (r :: df)) by (apply Hkeys; by left).
    rewrite Hnil in *. by apply elem_of_nil in H. }
  change (∀ x, x ∈ ks1 → (D (b, p) < D x)%nat) in H1.
  change (∀ x, x ∈ ks2 → (D (b, p) ≤ D x)%nat) in H2.
  change (distance (lower chars) (lower (group_text df (b, p)))) with (D (b, p)).
  cbn [fst snd]. exists b, p. split; [done|].
  assert (Hin : (b, p) ∈ group_keys df).
  { rewrite Hks. apply elem_of_app. right. by left. }
  split; [by apply Hkeys|].
  assert (Hcase : ∀ r, r ∈ df →
            Ocr.key r ∈ ks1 ∨ Ocr.key r = (b, p) ∨ Ocr.key r ∈ ks2).
  { intros r Hr.
    assert (Hk : Ocr.key r ∈ group_keys df)
      by (apply Hkeys, elem_of_map; eauto).
    rewrite Hks, elem_of_app, elem_of_cons in Hk. tauto. }
  assert (Hmin : ∀ r, r ∈ df → (D (b, p) ≤ D (Ocr.key r))%nat).
  { intros r Hr. destruct (Hcase r Hr) as [Hk|[->|Hk]]; [|done|by apply H2].
    by apply Nat.lt_le_incl, H1. }
  split; [done|]. split.
  - intros r Hr HD. destruct (Hcase r Hr) as [Hk|[->|Hk]].
    + specialize (H1 _ Hk). change (D (Ocr.key r) = D (b, p)) in HD.
      rewrite HD in H1. by apply Nat.lt_irrefl in H1.
    + by left.
    + right. rewrite Hks in Hsorted.
      apply StronglySorted_app_1_r in Hsorted.
      apply StronglySorted_inv in Hsorted as [_ Hall].
      rewrite Forall_forall in Hall. by apply Hall.
  - intros (r & Hr & Heq).
    assert (HD0 : D (b, p) = 0%nat).
    { specialize (Hmin r Hr). unfold D in Hmin at 2.
      rewrite Heq, distance_refl in Hmin. by apply Nat.le_0_r in Hmin. }
    split; [done|]. symmetry. by apply distance_eq_0.
Qed.

(** Letters outside A-Z are folded too: the query "é" (code point 233)
    matches the group "É" (201) at distance 0, and block 0 comes first. *)
Lemma find_block_num_folds_capital_e_acute :
  find_block_num (String "233" "")
    [Ocr.mk 1 0 100 100 90 20 (String "201" "");
     Ocr.mk 1 1 100 200 90 20 (String "233" "")]
  = Ok (Some 0, Some 1).
Proof. by vm_compute. Qed.

Lemma find_block_num_minimal_witness :
  find_block_num (String "233" "lan Vital")
    [Ocr.mk 1 0 100 10 90 20 "elan"; Ocr.mk 1 3 100 100 90 20 (String "201" "LAN");
     Ocr.mk 1 0 200 10 90 20 "vital"; Ocr.mk 2 3 100 100 90 20 "vital";
     Ocr.mk 1 3 200 100 90 20 "VITAL"]
  = Ok (Some 3, Some 1).
Proof.
  edestruct (find_block_num_minimal (String "233" "lan Vital")
    [Ocr.mk 1 0 100 10 90 20 "elan"; Ocr.mk 1 3 100 100 90 20 (String "201" "LAN");
     Ocr.mk 1 0 200 10 90 20 "vital"; Ocr.mk 2 3 100 100 90 20 "vital";
     Ocr.mk 1 3 200 100 90 20 "VITAL"])
    as (b & p & E & _ & _ & _ & Hexact); [discriminate|].
  destruct Hexact as [HD _].
  - exists (Ocr.mk 1 3 100 100 90 20 (String "201" "LAN")).
    split; [right; left|reflexivity].
  - rewrite E. vm_compute in E. by symmetry.
Defined.

(** * Further properties of the modelled code *)

(** ** Bounding boxes ([calculate_bbox]) *)

Lemma foldl_max_ge (l : list Z) (x : Z) :
  x ≤ foldl Z.max x l ∧ ∀ y, y ∈ l → y ≤ foldl Z.max x l.
Proof.
  revert x. induction l as [|a l IH]; intros x; simpl.
  - split; [lia|]. intros y Hy. by apply elem_of_nil in Hy.
  - destruct (IH (Z.max x a)) as [H1 H2]. split; [lia|].
    intros y [->|Hy]%elem_of_cons; [lia|by apply H2].
Qed.

Lemma foldl_max_elem (l : list Z) (x : Z) :
  foldl Z.max x l = x ∨ foldl Z.max x l ∈ l.
Proof.
  revert x. induction l as [|a l IH]; intros x; simpl; [by left|].
  destruct (IH (Z.max x a)) as [E|E].
  - rewrite E. destruct (Z.max_spec x a) as [[_ ->]|[_ ->]]; [|by left].
    right. by left.
  - right. by right.
Qed.

(** [Series.max()] of a non-empty column is its greatest element. *)
Lemma series_max_spec (l : list Z) (m : Z) :
  series_max l = Num m ↔ m ∈ l ∧ ∀ y, y ∈ l → y ≤ m.
Proof.
  destruct l as [|x l]; simpl.
  - split; [done|]. intros [H _]. by apply elem_of_nil in H.
  - destruct (foldl_max_ge l x) as [H1 H2].
    split.
    + intros [= <-]. split.
      * destruct (foldl_max_elem l x) as [->|E]; [by left|by right].
      * intros y [->|Hy]%elem_of_cons; [done|by apply H2].
    + intros [Hm Hle]. f_equal.
      assert (foldl Z.max x l ≤ m).
      { destruct (foldl_max_elem l x) as [->|E]; apply Hle; [by left|by right]. }
      apply elem_of_cons in Hm as [->|Hm]; [lia|].
      specialize (H2 _ Hm). lia.
Qed.

Lemma series_min_perm (l l' : list Z) : l ≡ₚ l' → series_min l = series_min l'.
Proof.
  intros Hp. destruct (series_min l) as [m|] eqn:E.
  - symmetry. apply series_min_spec. apply series_min_spec in E as [Hm Hle].
    split; [by rewrite <- Hp|]. intros y Hy. apply Hle. by rewrite Hp.
  - destruct l; [|done]. apply Permutation_nil in Hp. by subst.
Qed.

Lemma series_max_perm (l l' : list Z) : l ≡ₚ l' → series_max l = series_max l'.
Proof.
  intros Hp. destruct (series_max l) as [m|] eqn:E.
  - symmetry. apply series_max_spec. apply series_max_spec in E as [Hm Hle].
    split; [by rewrite <- Hp|]. intros y Hy. apply Hle. by rewrite Hp.
  - destruct l; [|done]. apply Permutation_nil in Hp. by subst.
Qed.

Lemma int64_id (z : Z) : - 2 ^ 63 ≤ z < 2 ^ 63 → int64 z = z.
Proof. intros Hz. unfold int64. rewrite Z.mod_small; lia. Qed.

(** The box of a matched block: four numbers, the least left and top
    and the greatest right and bottom of its words, the sums being
    [int64] sums. *)
Lemma calculate_bbox_matched (ocr_data : list Ocr.Row) (block page : Z) :
  (∃ o, o ∈ ocr_data ∧ Ocr.key o = (block, page)) →
  ∃ x0 top x1 bottom,
    calculate_bbox ocr_data block page = (Num x0, Num top, Num x1, Num bottom) ∧
    (∀ o, o ∈ ocr_data → Ocr.key o = (block, page) →
       x0 ≤ Ocr.left o ∧ int64 (Ocr.left o + Ocr.width o) ≤ x1 ∧
       top ≤ Ocr.top o ∧ int64 (Ocr.top o + Ocr.height o) ≤ bottom) ∧
    (∃ o, o ∈ ocr_data ∧ Ocr.key o = (block, page) ∧ Ocr.left o = x0) ∧
    (∃ o, o ∈ ocr_data ∧ Ocr.key o = (block, page) ∧
          int64 (Ocr.left o + Ocr.width o) = x1) ∧
    (∃ o, o ∈ ocr_data ∧ Ocr.key o = (block, page) ∧ Ocr.top o = top) ∧
    (∃ o, o ∈ ocr_data ∧ Ocr.key o = (block, page) ∧
          int64 (Ocr.top o + Ocr.height o) = bottom).
Proof.
  intros (o & Ho & [= Hb Hp]). unfold calculate_bbox.
  set (block_data := filter _ ocr_data).
  assert (Hin : o ∈ block_data) by (by apply list_elem_of_filter).
  assert (Hdata : ∀ r, r ∈ block_data ↔ r ∈ ocr_data ∧ Ocr.key r = (block, page)).
  { intros r. unfold block_data. rewrite list_elem_of_filter. unfold Ocr.key.
    split; [intros [[-> ->] ?]; done|intros [? [= -> ->]]; done]. }
  assert (Hne : ∀ f : Ocr.Row → Z, map f block_data ≠ []).
  { intros f. destruct block_data; [by apply elem_of_nil in Hin|done]. }
  destruct (series_min_nonempty _ (Hne Ocr.left)) as [x0 E0].
  destruct (series_min_nonempty _ (Hne Ocr.top)) as [top Et].
  assert (∃ x1, series_max (map (λ r, int64 (Ocr.left r + Ocr.width r))
                                block_data) = Num x1)
    as [x1 E1] by (destruct block_data; [by apply elem_of_nil in Hin|simpl; eauto]).
  assert (∃ b, series_max (map (λ r, int64 (Ocr.top r + Ocr.height r))
                               block_data) = Num b)
    as [bottom Eb] by (destruct block_data; [by apply elem_of_nil in Hin|simpl; eauto]).
  rewrite E0, Et, E1, Eb. exists x0, top, x1, bottom. split; [done|].
  apply series_min_spec in E0 as [(r0 & -> & Hr0)%elem_of_map L0].
  apply series_min_spec in Et as [(rt & -> & Hrt)%elem_of_map Lt].
  apply series_max_spec in E1 as [(r1 & -> & Hr1)%elem_of_map L1].
  apply series_max_spec in Eb as [(rb & -> & Hrb)%elem_of_map Lb].
  split.
  - intros r Hr Hk. assert (Hrd : r ∈ block_data) by (by apply Hdata).
    repeat split.
    + apply L0, elem_of_map. eauto.
    + apply L1, elem_of_map. exists r. done.
    + apply Lt, elem_of_map. eauto.
    + apply Lb, elem_of_map. exists r. done.
  - apply Hdata in Hr0 as [??], Hrt as [??], Hr1 as [??], Hrb as [??].
    repeat split; eauto.
Qed.

(** X1. For a block with at least one word, and as long as no sum
    [left + width] or [top + height] of its words leaves the [int64]
    range, [calculate_bbox] returns four numbers (no [NaN]) forming the
    tight enclosing rectangle: every word box of the block lies inside
    it, and each side is attained by some word of the block. *)
Theorem calculate_bbox_encloses (ocr_data : list Ocr.Row) (block page : Z) :
  (∃ o, o ∈ ocr_data ∧ Ocr.key o = (block, page)) →
  (∀ o, o ∈ ocr_data → Ocr.key o = (block, page) →
        - 2 ^ 63 ≤ Ocr.left o + Ocr.width o < 2 ^ 63 ∧
        - 2 ^ 63 ≤ Ocr.top o + Ocr.height o < 2 ^ 63) →
  ∃ x0 top x1 bottom,
    calculate_bbox ocr_data block page = (Num x0, Num top, Num x1, Num bottom) ∧
    (∀ o, o ∈ ocr_data → Ocr.key o = (block, page) →
       x0 ≤ Ocr.left o ∧ Ocr.left o + Ocr.width o ≤ x1 ∧
       top ≤ Ocr.top o ∧ Ocr.top o + Ocr.height o ≤ bottom) ∧
    (∃ o, o ∈ ocr_data ∧ Ocr.key o = (block, page) ∧ Ocr.left o = x0) ∧
    (∃ o, o ∈ ocr_data ∧ Ocr.key o = (block, page) ∧
          Ocr.left o + Ocr.width o = x1) ∧
    (∃ o, o ∈ ocr_data ∧ Ocr.key o = (block, page) ∧ Ocr.top o = top) ∧
    (∃ o, o ∈ ocr_data ∧ Ocr.key o = (block, page) ∧
          Ocr.top o + Ocr.height o = bottom).
Proof.
  intros Hex Hrange.
  destruct (calculate_bbox_matched ocr_data block page Hex)
    as (x0 & top & x1 & bottom & E & Henc & H0 & H1 & Ht & Hb).
  exists x0, top, x1, bottom. split; [done|]. split; [|split; [done|split]].
  - intros o Ho Hk. destruct (Henc o Ho Hk) as (? & Hx & ? & Hy).
    destruct (Hrange o Ho Hk) as [Rx Ry].
    rewrite (int64_id _ Rx) in Hx. rewrite (int64_id _ Ry) in Hy. done.
  - destruct H1 as (o & Ho & Hk & Ex). exists o.
    destruct (Hrange o Ho Hk) as [Rx _]. by rewrite (int64_id _ Rx) in Ex.
  - split; [done|]. destruct Hb as (o & Ho & Hk & Ey). exists o.
    destruct (Hrange o Ho Hk) as [_ Ry]. by rewrite (int64_id _ Ry) in Ey.
Qed.

Lemma calculate_bbox_encloses_witness :
  calculate_bbox
    [Ocr.mk 1 0 100 100 300 40 "Title"; Ocr.mk 1 0 420 96 200 40 "Text";
     Ocr.mk 1 1 150 200 250 30 "Author"] 0 1
  = (Num 100, Num 96, Num 620, Num 140).
Proof.
  edestruct (calculate_bbox_encloses
    [Ocr.mk 1 0 100 100 300 40 "Title"; Ocr.mk 1 0 420 96 200 40 "Text";
     Ocr.mk 1 1 150 200 250 30 "Author"] 0 1)
    as (x0 & top & x1 & bottom & E & _).
  - eexists. split; [left|reflexivity].
  - intros o Ho _.
    repeat (apply elem_of_cons in Ho as [->|Ho]; [by vm_compute|]).
    by apply elem_of_nil in Ho.
  - rewrite E. vm_compute in E. by symmetry.
Defined.

(** X2. When the words of a matched block have non-negative width and
    height and no sum [left + width] or [top + height] leaves the
    [int64] range, the box is well formed: [x0 ≤ x1] and
    [top ≤ bottom]. *)
Theorem calculate_bbox_well_formed (ocr_data : list Ocr.Row) (block page : Z) :
  (∃ o, o ∈ ocr_data ∧ Ocr.key o = (block, page)) →
  (∀ o, o ∈ ocr_data → Ocr.key o = (block, page) →
        0 ≤ Ocr.width o ∧ 0 ≤ Ocr.height o ∧
        - 2 ^ 63 ≤ Ocr.left o + Ocr.width o < 2 ^ 63 ∧
        - 2 ^ 63 ≤ Ocr.top o + Ocr.height o < 2 ^ 63) →
  ∃ x0 top x1 bottom,
    calculate_bbox ocr_data block page = (Num x0, Num top, Num x1, Num bottom) ∧
    x0 ≤ x1 ∧ top ≤ bottom.
Proof.
  intros Hex Hpos.
  destruct (calculate_bbox_matched ocr_data block page Hex)
    as (x0 & top & x1 & bottom & E & Henc & _).
  exists x0, top, x1, bottom. split; [done|].
  destruct Hex as (o & Ho & Hk).
  destruct (Henc o Ho Hk) as (? & Hx & ? & Hy).
  destruct (Hpos o Ho Hk) as (? & ? & Rx & Ry).
  rewrite (int64_id _ Rx) in Hx. rewrite (int64_id _ Ry) in Hy. lia.
Qed.

Lemma calculate_bbox_well_formed_witness :
  ∃ x0 top x1 bottom,
    calculate_bbox
      [Ocr.mk 1 0 100 100 300 40 "Title"; Ocr.mk 1 0 420 96 200 40 "Text"] 0 1
    = (Num x0, Num top, Num x1, Num bottom) ∧ x0 ≤ x1 ∧ top ≤ bottom.
Proof.
  apply calculate_bbox_well_formed.
  - eexists. split; [left|reflexivity].
  - intros o [->|[->|[]%elem_of_nil]%elem_of_cons]%elem_of_cons _;
      cbn [Ocr.width Ocr.height Ocr.left Ocr.top]; lia.
Defined.

(** The wrap-around is real: a word that ends at the top of the [int64]
    range yields a box whose right side lies left of its left side. *)
Lemma calculate_bbox_wraps :
  calculate_bbox [Ocr.mk 1 0 (2 ^ 63 - 1) 0 1 10 "x"] 0 1
  = (Num (2 ^ 63 - 1), Num 0, Num (- 2 ^ 63), Num 10).
Proof. by vm_compute. Qed.

(** X3. The box depends on the set of words of the block only, not on
    the order of the rows of the table. *)
Theorem calculate_bbox_perm (ocr_data ocr_data' : list Ocr.Row) (block page : Z) :
  ocr_data ≡ₚ ocr_data' →
  calculate_bbox ocr_data block page = calculate_bbox ocr_data' block page.
Proof.
  intros Hp. unfold calculate_bbox.
  set (P := λ r, Ocr.block_num r = block ∧ Ocr.page_num r = page).
  assert (Hf : filter P ocr_data ≡ₚ filter P ocr_data') by (by rewrite Hp).
  assert (Hm : ∀ f : Ocr.Row → Z,
            map f (filter P ocr_data) ≡ₚ map f (filter P ocr_data')).
  { intros f. change (f <$> filter P ocr_data ≡ₚ f <$> filter P ocr_data').
    by rewrite Hf. }
  rewrite (series_min_perm _ _ (Hm Ocr.left)).
  rewrite (series_min_perm _ _ (Hm Ocr.top)).
  rewrite (series_max_perm _ _ (Hm (λ r, int64 (Ocr.left r + Ocr.width r)))).
  rewrite (series_max_perm _ _ (Hm (λ r, int64 (Ocr.top r + Ocr.height r)))).
  done.
Qed.

Lemma calculate_bbox_perm_witness :
  calculate_bbox
    [Ocr.mk 1 0 100 100 300 40 "Title"; Ocr.mk 1 0 420 96 200 40 "Text"] 0 1 =
  calculate_bbox
    [Ocr.mk 1 0 420 96 200 40 "Text"; Ocr.mk 1 0 100 100 300 40 "Title"] 0 1.
Proof. apply calculate_bbox_perm. apply perm_swap. Defined.

(** ** Table regions ([get_table_block_nums]) *)

Lemma table_scan_spec rows target acc b :
  b ∈ table_scan rows target acc ↔
  b ∈ acc ∨
  ∃ pre row post, rows = pre ++ row :: post ∧
    overlaps (word_bbox row) target = true ∧
    (b = Ocr.block_num row ∨
     ∃ next_row rest, post = next_row :: rest ∧
       contains "Table" (Ocr.text next_row) = true ∧
       b = Ocr.block_num next_row).
Proof.
  revert acc. induction rows as [|row rows IH]; intros acc; cbn [table_scan].
  - split; [by left|]. intros [?|(pre & r & post & E & _)]; [done|].
    by destruct pre.
  - rewrite IH. split.
    + intros [Hb|(pre & r & post & -> & Ho & Hb)].
      * destruct (overlaps (word_bbox row) target) eqn:Ho; [|by left].
        assert (Hcase : b ∈ acc ∨ b = Ocr.block_num row ∨
                  ∃ next_row rest, rows = next_row :: rest ∧
                    contains "Table" (Ocr.text next_row) = true ∧
                    b = Ocr.block_num next_row).
        { destruct rows as [|next_row rest]; [set_solver|].
          destruct (contains "Table" (Ocr.text next_row)) eqn:Ec;
            [|set_solver].
          apply elem_of_union in Hb as [Hb|Hb]; [|set_solver].
          apply elem_of_singleton in Hb. right. right. eauto. }
        destruct Hcase as [?|Hcase]; [by left|].
        right. exists [], row, rows. done.
      * right. exists (row :: pre), r, post. done.
    + intros [Hb|(pre & r & post & E & Ho & Hb)].
      * left. destruct (overlaps (word_bbox row) target); [|done].
        destruct rows as [|next_row rest]; [set_solver|].
        destruct (contains "Table" (Ocr.text next_row)); set_solver.
      * destruct pre as [|r0 pre]; simpl in E; injection E as -> ->.
        -- left. rewrite Ho.
           destruct Hb as [->|(next_row & rest & -> & Hc & ->)];
             [|rewrite Hc; set_solver].
           destruct post as [|next_row rest]; [set_solver|].
           destruct (contains "Table" (Ocr.text next_row)); set_solver.
        -- right. exists pre, r, post. done.
Qed.

(** X4. A block is returned by [get_table_block_nums] exactly when, on
    page [page_num + 1], one of its words overlaps the target or it
    holds the row that directly follows an overlapping word and
    contains "Table"; in particular nothing is returned when no word of
    that page overlaps the target. *)
Theorem get_table_block_nums_spec
    (ocr_data : list Ocr.Row) (target_bbox : bbox Q) (page_num b : Z) :
  let filtered_data := filter (λ r, Ocr.page_num r = page_num + 1) ocr_data in
  (b ∈ get_table_block_nums ocr_data target_bbox page_num ↔
   ∃ pre row post, filtered_data = pre ++ row :: post ∧
     overlaps (word_bbox row) target_bbox = true ∧
     (b = Ocr.block_num row ∨
      ∃ next_row rest, post = next_row :: rest ∧
        contains "Table" (Ocr.text next_row) = true ∧
        b = Ocr.block_num next_row)) ∧
  ((∀ row, row ∈ filtered_data → overlaps (word_bbox row) target_bbox = false) →
   get_table_block_nums ocr_data target_bbox page_num = ∅).
Proof.
  intros filtered_data.
  assert (Hiff : ∀ b', b' ∈ get_table_block_nums ocr_data target_bbox page_num ↔
    ∃ pre row post, filtered_data = pre ++ row :: post ∧
     overlaps (word_bbox row) target_bbox = true ∧
     (b' = Ocr.block_num row ∨
      ∃ next_row rest, post = next_row :: rest ∧
        contains "Table" (Ocr.text next_row) = true ∧
        b' = Ocr.block_num next_row)).
  { intros b'. unfold get_table_block_nums. fold filtered_data.
    rewrite table_scan_spec. split; [|by right].
    intros [Hb|?]; [|done]. by apply not_elem_of_empty in Hb. }
  split; [apply Hiff|].
  intros Hno. apply set_eq. intros b'. rewrite Hiff. split.
  - intros (pre & row & post & E & Ho & _).
    rewrite Hno in Ho; [done|]. rewrite E. apply elem_of_app. right. by left.
  - intros Hb. by apply not_elem_of_empty in Hb.
Qed.

Lemma get_table_block_nums_spec_witness :
  get_table_block_nums
    [Ocr.mk 1 4 500 500 90 20 "1.23"; Ocr.mk 1 5 100 900 90 20 "Table";
     Ocr.mk 2 0 100 100 90 20 "Intro"] (0, 0, 50, 50)%Q 0 = ∅.
Proof.
  apply get_table_block_nums_spec; [exact 0|].
  intros row Hrow. apply list_elem_of_filter in Hrow as [_ Hrow].
  repeat (apply elem_of_cons in Hrow as [->|Hrow]; [by vm_compute|]).
  by apply elem_of_nil in Hrow.
Defined.

(** ** Coordinate mapping *)

Lemma Qltb_scale (x y s : Q) : (0 < s)%Q → Qltb (x * s) (y * s) = Qltb x y.
Proof.
  intros Hs. destruct (Qltb x y) eqn:E.
  - apply Qltb_lt. apply Qltb_lt in E. by apply Qmult_lt_r.
  - destruct (Qltb (x * s) (y * s)) eqn:E'; [|done].
    apply Qltb_lt in E'. apply Qmult_lt_r in E'; [|done].
    apply Qltb_lt in E'. congruence.
Qed.

Lemma Qdiv_pos (a b : Q) : (0 < a)%Q → (0 < b)%Q → (0 < a / b)%Q.
Proof.
  intros Ha Hb. unfold Qdiv. apply Qmult_lt_0_compat; [done|].
  by apply Qinv_lt_0_compat.
Qed.

(** X5. Mapping two point-space rectangles of one page to pixels does
    not change whether they overlap. *)
Theorem overlaps_convert_bbox_to_pixels (a b : bbox Q) (W H : Q) :
  (0 < W)%Q → (0 < H)%Q →
  overlaps (convert_bbox_to_pixels a W H) (convert_bbox_to_pixels b W H)
  = overlaps a b.
Proof.
  intros HW HH.
  destruct a as [[[ax0 atop] ax1] abottom], b as [[[bx0 btop] bx1] bbottom].
  unfold convert_bbox_to_pixels, overlaps. cbv zeta.
  assert (0 < ocr_page_width / W)%Q by (by apply Qdiv_pos).
  assert (0 < ocr_page_height / H)%Q by (by apply Qdiv_pos).
  by rewrite !Qltb_scale.
Qed.

Lemma overlaps_convert_bbox_to_pixels_witness :
  overlaps (convert_bbox_to_pixels (0, 0, 10, 10)%Q 595 842)
           (convert_bbox_to_pixels (5, 5, 20, 20)%Q 595 842) = true.
Proof.
  rewrite (overlaps_convert_bbox_to_pixels (0, 0, 10, 10)%Q (5, 5, 20, 20)%Q
             595 842); reflexivity.
Defined.



(** ** Text cleaning and label search ([utils.py]) *)

Lemma remove_special_characters_clean (text : string) (c : ascii) :
  In c (list_ascii_of_string (remove_special_characters text)) →
  is_special c = false ∧ In c (list_ascii_of_string text).
Proof.
  induction text as [|a text IH]; simpl; [done|].
  destruct (is_special a) eqn:E; simpl.
  - intros [? ?]%IH. auto.
  - intros [<-|[? ?]%IH]; auto.
Qed.

Lemma remove_special_characters_id (text : string) :
  (∀ c, In c (list_ascii_of_string text) → is_special c = false) →
  remove_special_characters text = text.
Proof.
  induction text as [|a text IH]; simpl; [done|].
  intros Hc. rewrite (Hc a) by (by left). f_equal. apply IH. auto.
Qed.

(** X7. [remove_special_characters] leaves no control character other
    than the line feed, keeps every other character in order (a string
    without such characters is returned unchanged), never lengthens the
    text, and cleaning twice is the same as cleaning once. *)
Theorem remove_special_characters_spec (text : string) :
  (∀ c, In c (list_ascii_of_string (remove_special_characters text)) →
        is_special c = false) ∧
  list_ascii_of_string (remove_special_characters text) =
    List.filter (λ c, negb (is_special c)) (list_ascii_of_string text) ∧
  (String.length (remove_special_characters text) ≤ String.length text)%nat ∧
  remove_special_characters (remove_special_characters text)
    = remove_special_characters text.
Proof.
  split; [intros c Hc; by apply remove_special_characters_clean in Hc as [? _]|].
  split; [|split].
  - induction text as [|a text IH]; simpl; [done|].
    destruct (is_special a); simpl; by rewrite IH.
  - induction text as [|a text IH]; simpl; [done|].
    destruct (is_special a); simpl; lia.
  - apply remove_special_characters_id.
    intros c Hc. by apply remove_special_characters_clean in Hc as [? _].
Qed.

Lemma remove_special_characters_spec_witness :
  remove_special_characters (String "009" (String "a" (String "010" "b")))
  = String "a" (String "010" "b") ∧
  is_special "a" = false.
Proof.
  split; [reflexivity|].
  destruct (remove_special_characters_spec
              (String "009" (String "a" (String "010" "b")))) as [Hclean _].
  apply Hclean. left. reflexivity.
Defined.

Lemma substring_0_length (m : nat) (s : string) :
  String.length (String.substring 0 m s) = m → (m ≤ String.length s)%nat.
Proof.
  revert s. induction m as [|m IH]; intros s; [lia|].
  destruct s as [|c s]; cbn [String.substring String.length]; [done|].
  intros [= E]. apply IH in E. lia.
Qed.

Lemma str_find_Some (needle hay : string) (i : nat) :
  str_find needle hay = Some i →
  String.substring i (String.length needle) hay = needle ∧
  (i + String.length needle ≤ String.length hay)%nat ∧
  ∀ j, (j < i)%nat → String.substring j (String.length needle) hay ≠ needle.
Proof.
  revert i. induction hay as [|a hay IH]; intros i; cbn [str_find].
  - destruct needle as [|c needle]; cbn [String.prefix]; [|done].
    intros [= <-]. split; [done|]. split; [simpl; lia|]. intros j Hj. lia.
  - destruct (String.prefix needle (String a hay)) eqn:Ep.
    + intros [= <-]. apply prefix_correct in Ep.
      split; [done|]. split; [|intros j Hj; lia].
      rewrite Nat.add_0_l. apply substring_0_length. by rewrite Ep.
    + destruct (str_find needle hay) as [k|] eqn:Ek; cbn [fmap option_fmap option_map];
        [|done].
      intros [= <-]. destruct (IH k eq_refl) as (Hs & Hl & Hmin).
      split; [destruct needle; done|]. split; [cbn [String.length]; lia|].
      intros [|j] Hj.
      * intros Hc. apply prefix_correct in Hc. congruence.
      * assert (Hj' : (j < k)%nat) by lia. specialize (Hmin j Hj').
        destruct needle; done.
Qed.

Lemma str_find_None (needle hay : string) :
  str_find needle hay = None → contains needle hay = false.
Proof.
  induction hay as [|a hay IH]; cbn [str_find contains].
  - by destruct (String.prefix needle "").
  - destruct (String.prefix needle (String a hay)); [done|].
    destruct (str_find needle hay); [done|]. intros _. by apply IH.
Qed.

Lemma contains_str_find (needle hay : string) :
  contains needle hay = true → ∃ i, str_find needle hay = Some i.
Proof.
  destruct (str_find needle hay) as [i|] eqn:E; [eauto|].
  apply str_find_None in E. congruence.
Qed.

(** X8. When the cleaned label occurs in the text, [find_label] returns
    the offsets of its first occurrence: [0 ≤ start ≤ end ≤ len(text)],
    the text between them is the cleaned label, and the label does not
    occur at any earlier position. *)
Theorem find_label_found (text label : string) :
  let cleaned := remove_special_characters label in
  contains cleaned text = true →
  ∃ i : nat,
    find_label text label =
      (Z.of_nat i, Z.of_nat (i + String.length cleaned)) ∧
    (i + String.length cleaned ≤ String.length text)%nat ∧
    String.substring i (String.length cleaned) text = cleaned ∧
    ∀ j, (j < i)%nat → String.substring j (String.length cleaned) text ≠ cleaned.
Proof.
  intros cleaned Hc. destruct (contains_str_find _ _ Hc) as [i Ei].
  exists i. unfold find_label, py_find. fold cleaned. rewrite Ei.
  destruct (str_find_Some _ _ _ Ei) as (Hs & Hl & Hmin).
  split; [f_equal; lia|]. done.
Qed.

Lemma find_label_found_witness :
  find_label "Neural Machine Translation" "Machine" = (7, 14).
Proof.
  edestruct (find_label_found "Neural Machine Translation" "Machine")
    as (i & E & _); [reflexivity|].
  rewrite E. vm_compute in E. by symmetry.
Defined.

(** X9. When the cleaned label does not occur in the text, [find_label]
    does not signal the miss by an absent value: it returns the pair
    [(-1, len(label) - 1)] computed from the [-1] of [str.find]. *)
Theorem find_label_missing (text label : string) :
  let cleaned := remove_special_characters label in
  contains cleaned text = false →
  find_label text label = (-1, Z.of_nat (String.length cleaned) - 1).
Proof.
  intros cleaned Hc. unfold find_label, py_find. fold cleaned.
  destruct (str_find cleaned text) as [i|] eqn:E.
  - apply str_find_Some in E as (Hs & _).
    assert (contains cleaned text = true); [|congruence].
    clear Hc. revert i Hs. generalize cleaned. clear.
    intros needle. induction text as [|a text IH]; intros i Hs;
      cbn [contains].
    + destruct needle; [done|]. by destruct i.
    + destruct i as [|i].
      * apply prefix_correct in Hs. by rewrite Hs.
      * apply orb_true_iff. right. apply (IH i).
        by destruct needle.
  - f_equal. lia.
Qed.

Lemma find_label_missing_witness :
  find_label "Neural Machine Translation" "Abstract" = (-1, 7).
Proof. by apply find_label_missing. Defined.

(** ** Outline indices ([get_index]), continued *)

Lemma get_index_body_entries acc e acc' :
  get_index_body acc e = Ok acc' →
  map Outline.entry acc' = e :: map Outline.entry acc.
Proof.
  unfold get_index_body. destruct acc as [|pre acc0]; [by intros [= <-]|].
  destruct (next_index pre e) as [i|]; simpl; [|done]. by intros [= <-].
Qed.

Lemma for_each_get_index_entries sections acc acc' :
  for_each get_index_body sections acc = Ok acc' →
  rev (map Outline.entry acc') = rev (map Outline.entry acc) ++ sections.
Proof.
  revert acc. induction sections as [|e sections IH]; intros acc; simpl.
  - intros [= <-]. by rewrite app_nil_r.
  - destruct (get_index_body acc e) as [acc1|] eqn:E; simpl; [|done].
    intros H. rewrite (IH _ H), (get_index_body_entries _ _ _ E).
    simpl. by rewrite <- app_assoc.
Qed.

(** X10. When [get_index] returns, it returns the entries it was given,
    in the same order and number, each extended by an index. *)
Theorem get_index_entries (sections : list Outline.Entry)
    (out : list Outline.Indexed) :
  get_index sections = Ok out →
  map Outline.entry out = sections ∧ length out = length sections.
Proof.
  unfold get_index.
  destruct (for_each get_index_body sections []) as [acc|] eqn:E; simpl; [|done].
  intros [= <-]. apply for_each_get_index_entries in E. simpl in E.
  assert (Hm : map Outline.entry (rev acc) = sections)
    by (by rewrite map_rev).
  split; [done|]. by rewrite <- Hm, length_map.
Qed.

Lemma get_index_entries_witness :
  ∃ out,
    get_index [Outline.mk 1 "Intro" 1; Outline.mk 2 "Background" 1] = Ok out ∧
    map Outline.entry out = [Outline.mk 1 "Intro" 1; Outline.mk 2 "Background" 1].
Proof.
  eexists. split; [reflexivity|].
  eapply get_index_entries. reflexivity.
Defined.

Lemma py_int_char_range (c : ascii) (n : Z) :
  py_int_char c = Ok n → 0 ≤ n ≤ 9.
Proof.
  unfold py_int_char.
  destruct (_ && _) eqn:E; [|done]. intros [= <-].
  apply andb_true_iff in E as [E1 E2].
  apply Nat.leb_le in E1, E2. lia.
Qed.

Lemma py_str_succ_digits (n : Z) :
  0 ≤ n ≤ 9 →
  (∃ c m, str_first (py_str (n + 1)) = Ok c ∧ py_int_char c = Ok m) ∧
  (∃ c m, str_last (py_str (n + 1)) = Ok c ∧ py_int_char c = Ok m).
Proof.
  intros Hn.
  assert (n = 0 ∨ n = 1 ∨ n = 2 ∨ n = 3 ∨ n = 4 ∨ n = 5 ∨ n = 6 ∨ n = 7 ∨
          n = 8 ∨ n = 9) as Hc by lia.
  repeat (destruct Hc as [->|Hc];
          [split; do 2 eexists; (split; [reflexivity|reflexivity])|]).
  subst. split; do 2 eexists; (split; [reflexivity|reflexivity]).
Qed.

Lemma length_append (s t : string) :
  String.length (s ++ t) = (String.length s + String.length t)%nat.
Proof. induction s as [|a s IH]; simpl; [done|]. by rewrite IH. Qed.

Lemma str_first_app (s t : string) (c : ascii) :
  str_first s = Ok c → str_first (s ++ t) = Ok c.
Proof. by destruct s. Qed.

Lemma str_last_app (s t : string) :
  t ≠ "" → str_last (s ++ t) = str_last t.
Proof.
  intros Ht. induction s as [|a s IH]; [done|].
  change (str_last (String a (s ++ t)) = str_last t).
  rewrite <- IH. destruct (s ++ t)%string eqn:E; [|done].
  exfalso. destruct s; simpl in E; [by subst|done].
Qed.

Lemma str_drop_last2_first (s : string) (c : ascii) :
  str_first s = Ok c → (3 ≤ String.length s)%nat →
  str_first (str_drop_last2 s) = Ok c ∧
  (1 ≤ String.length (str_drop_last2 s))%nat.
Proof.
  unfold str_drop_last2. destruct s as [|a s]; [done|].
  intros [= ->] Hl. cbn [String.length] in *.
  destruct (S (String.length s) - 2)%nat as [|m] eqn:E; [lia|].
  cbn [String.substring str_first String.length]. split; [done|lia].
Qed.

(** The index appended after a well-shaped one is well shaped, when the
    new level is at least 1. *)
Lemma next_index_ok (pre : Outline.Indexed) (e : Outline.Entry) :
  index_ok pre → 1 ≤ Outline.level e →
  ∃ i, next_index pre e = Ok i ∧ index_ok (Outline.mkI e i).
Proof.
  intros ((c1 & n1 & F1 & D1) & (c2 & n2 & L2 & D2) & Hlen) Hlev.
  unfold next_index, index_ok. cbn [Outline.index Outline.entry].
  destruct (decide (Outline.level e = 1)) as [E1|NE1].
  - rewrite F1. cbn [bind]. rewrite D1. cbn [bind].
    eexists. split; [done|].
    destruct (py_str_succ_digits n1 (py_int_char_range _ _ D1)) as [Hf Hl].
    split; [done|]. split; [done|]. lia.
  - destruct (decide (_ < _)) as [Hlt|Hge].
    + eexists. split; [done|]. split; [|split].
      * exists c1, n1. split; [by apply str_first_app|done].
      * rewrite str_last_app by done.
        do 2 eexists. split; reflexivity.
      * intros _. rewrite length_append.
        assert (1 ≤ String.length (Outline.index pre))%nat; [|simpl; lia].
        destruct (Outline.index pre); [done|simpl; lia].
    + rewrite L2. cbn [bind]. rewrite D2. cbn [bind].
      eexists. split; [done|].
      assert (Hl3 : (3 ≤ String.length (Outline.index pre))%nat)
        by (apply Hlen; lia).
      destruct (str_drop_last2_first _ _ F1 Hl3) as [Hdf Hdl].
      destruct (py_str_succ_digits n2 (py_int_char_range _ _ D2))
        as [_ (c & m & Hc & Hm)].
      assert (Hne : py_str (n2 + 1) ≠ "").
      { intros E. rewrite E in Hc. done. }
      split; [|split].
      * exists c1, n1. split; [by apply str_first_app|done].
      * exists c, m. split; [|done].
        rewrite str_last_app; [|by destruct (py_str (n2 + 1))].
        rewrite (str_last_app "." _ Hne). done.
      * intros _. rewrite !length_append.
        assert (1 ≤ String.length (py_str (n2 + 1)))%nat
          by (destruct (py_str (n2 + 1)); [done|simpl; lia]).
        simpl. lia.
Qed.

Lemma for_each_get_index_ok sections pre acc :
  index_ok pre → (∀ e, e ∈ sections → 1 ≤ Outline.level e) →
  ∃ acc', for_each get_index_body sections (pre :: acc) = Ok acc'.
Proof.
  revert pre acc. induction sections as [|e sections IH]; intros pre acc Hok Hlev;
    cbn [for_each]; [eauto|].
  cbn [get_index_body].
  destruct (next_index_ok pre e Hok) as (i & -> & Hi); [apply Hlev; by left|].
  cbn [bind]. apply IH; [done|]. intros e' He'. apply Hlev. by right.
Qed.

(** X11. [get_index] never raises on an outline whose first entry has
    level 1 and whose other entries have level at least 1: every index
    it builds then starts and ends with a digit, which is what its
    character arithmetic needs. *)
Theorem get_index_total (first : Outline.Entry) (sections : list Outline.Entry) :
  Outline.level first = 1 →
  (∀ e, e ∈ sections → 1 ≤ Outline.level e) →
  ∃ out, get_index (first :: sections) = Ok out.
Proof.
  intros H1 Hlev. unfold get_index. cbn [for_each get_index_body bind].
  destruct (for_each_get_index_ok sections (Outline.mkI first "1") [])
    as [acc ->]; [|done|cbn [bind]; eauto].
  split; [do 2 eexists; split; reflexivity|].
  split; [do 2 eexists; split; reflexivity|].
  cbn [Outline.entry]. lia.
Qed.

Lemma get_index_total_witness :
  ∃ out,
    get_index [Outline.mk 1 "Intro" 1; Outline.mk 2 "Data" 2;
               Outline.mk 3 "Corpus" 2; Outline.mk 2 "Models" 3;
               Outline.mk 1 "Results" 4] = Ok out.
Proof.
  apply get_index_total; [reflexivity|].
  intros e He.
  repeat (apply elem_of_cons in He as [->|He]; [simpl; lia|]).
  by apply elem_of_nil in He.
Defined.

(** ** Abstract and keyword detection ([find_abstract], [find_keywords]) *)

Lemma iterrows_filter_snd (P : Ocr.Row → Prop) `{∀ r, Decision (P r)}
    (df : list Ocr.Row) :
  map snd (filter (λ ir : nat * Ocr.Row, P ir.2) (iterrows df)) = filter P df.
Proof.
  unfold iterrows.
  assert (G : ∀ (f : nat → nat),
            map snd (filter (λ ir : nat * Ocr.Row, P ir.2)
                       (imap (λ i row, (f i, row)) df)) = filter P df).
  { induction df as [|r df IH]; intros f; [done|].
    rewrite imap_cons, !filter_cons. cbn [snd].
    destruct (decide (P r)); cbn [map]; f_equal; apply (IH (f ∘ S)). }
  apply (G id).
Qed.

Lemma first_page_scan_spec search_string (fpd rows : list (nat * Ocr.Row)) :
  let hit (r : Ocr.Row) :=
    contains search_string (lower (strip (Ocr.text r))) in
  let found := first_page_scan search_string fpd rows ∅ in
  (size found ≤ 2)%nat ∧
  (∀ b, b ∈ found → ∃ ir, (ir ∈ rows ∨ ir ∈ fpd) ∧ Ocr.block_num ir.2 = b) ∧
  (found = ∅ ↔ ∀ ir, ir ∈ rows → hit ir.2 = false) ∧
  (∀ pre r post, map snd rows = pre ++ r :: post →
     (∀ r', r' ∈ pre → hit r' = false) → hit r = true →
     Ocr.block_num r ∈ found).
Proof.
  intros hit. induction rows as [|[index row] rest IH]; cbn [first_page_scan].
  - cbv zeta. split; [rewrite size_empty; lia|]. split; [set_solver|].
    split; [split; [intros _ ir Hir; by apply elem_of_nil in Hir|done]|].
    intros pre r post E. by destruct pre.
  - fold (hit row). destruct (hit row) eqn:Eh.
    + cbv zeta.
      set (found := if String.eqb _ _ then _ else _).
      assert (Hsub : {[Ocr.block_num row]} ⊆ found ∧
                (∀ b, b ∈ found → b = Ocr.block_num row ∨
                   ∃ ir, ir ∈ fpd ∧ Ocr.block_num ir.2 = b) ∧
                (size found ≤ 2)%nat).
      { subst found. rewrite union_empty_r_L.
        destruct (String.eqb _ _);
          [|split; [set_solver|split; [set_solver|];
             rewrite ?union_empty_r_L, size_singleton; lia]].
        destruct (_ <? _)%nat;
          [|split; [set_solver|split; [set_solver|];
             rewrite ?union_empty_r_L, size_singleton; lia]].
        destruct (fpd !! _) as [[j next_row]|] eqn:El;
          [|split; [set_solver|split; [set_solver|];
             rewrite ?union_empty_r_L, size_singleton; lia]].
        split; [set_solver|]. split.
        - intros b Hb.
          assert (b = Ocr.block_num next_row ∨ b = Ocr.block_num row)
            as [->| ->] by set_solver; [|by left].
          right. exists (j, next_row). split; [|done].
          by eapply list_elem_of_lookup_2.
        - rewrite ?union_empty_r_L, size_union_alt, size_singleton.
          assert (size (({[Ocr.block_num row]} : gset Z)
                          ∖ {[Ocr.block_num next_row]}) ≤ 1)%nat; [|lia].
          rewrite <- (size_singleton (C := gset Z) (Ocr.block_num row)).
          apply subseteq_size. set_solver. }
      destruct Hsub as (Hsub & Hmem & Hsize).
      split; [done|]. split.
      { intros b [->|(ir & Hir & <-)]%Hmem.
        - exists (index, row). split; [left; by left|done].
        - exists ir. split; [by right|done]. }
      split.
      { split.
        - intros E. rewrite E in Hsub. set_solver.
        - intros Hall. specialize (Hall (index, row) (list_elem_of_here _ _)).
          simpl in Hall. congruence. }
      intros pre r post E Hpre Hr.
      destruct pre as [|p pre]; simpl in E; injection E as <- E.
      * set_solver.
      * rewrite Hpre in Eh by (by left). done.
    + destruct IH as (IH1 & IH2 & IH3 & IH4). cbv zeta.
      split; [done|]. split.
      { intros b (ir & [Hir|Hir] & <-)%IH2; exists ir;
          (split; [|done]); [left; by right|by right]. }
      split.
      { rewrite IH3. split.
        - intros Hall ir [->|Hir]%elem_of_cons; [done|by apply Hall].
        - intros Hall ir Hir. apply Hall. by right. }
      intros pre r post E Hpre Hr.
      destruct pre as [|p pre]; simpl in E; injection E as <- E.
      * congruence.
      * apply (IH4 pre r post E); [|done]. intros r' Hr'. apply Hpre. by right.
Qed.

Lemma first_page_blocks_spec search_string (ocr_data : list Ocr.Row) :
  let hit (r : Ocr.Row) :=
    contains search_string (lower (strip (Ocr.text r))) in
  let first_page_data :=
    filter (λ ir : nat * Ocr.Row, Ocr.page_num ir.2 = 1) (iterrows ocr_data) in
  let found :=
    first_page_scan search_string first_page_data first_page_data ∅ in
  (size found ≤ 2)%nat ∧
  (∀ b, b ∈ found →
        ∃ r, r ∈ ocr_data ∧ Ocr.page_num r = 1 ∧ Ocr.block_num r = b) ∧
  (found = ∅ ↔
   ∀ r, r ∈ ocr_data → Ocr.page_num r = 1 → hit r = false) ∧
  (∀ pre r post,
     filter (λ r, Ocr.page_num r = 1) ocr_data = pre ++ r :: post →
     (∀ r', r' ∈ pre → hit r' = false) → hit r = true →
     Ocr.block_num r ∈ found).
Proof.
  intros hit first_page_data found.
  assert (Hsnd : map snd first_page_data
                 = filter (λ r, Ocr.page_num r = 1) ocr_data)
    by exact (iterrows_filter_snd (λ r, Ocr.page_num r = 1) ocr_data).
  assert (Hrow : ∀ ir, ir ∈ first_page_data →
                       ir.2 ∈ ocr_data ∧ Ocr.page_num ir.2 = 1).
  { intros ir Hir.
    assert (H : ir.2 ∈ map snd first_page_data) by (apply elem_of_map; eauto).
    rewrite Hsnd in H. apply list_elem_of_filter in H. tauto. }
  assert (Hrow' : ∀ r, r ∈ ocr_data → Ocr.page_num r = 1 →
                       ∃ ir, ir ∈ first_page_data ∧ ir.2 = r).
  { intros r Hr Hp.
    assert (H : r ∈ map snd first_page_data)
      by (rewrite Hsnd; by apply list_elem_of_filter).
    apply elem_of_map in H as (ir & -> & Hir). eauto. }
  destruct (first_page_scan_spec search_string first_page_data first_page_data)
    as (H1 & H2 & H3 & H4).
  fold hit in H3, H4. fold found in H1, H2, H3, H4.
  split; [done|]. split.
  { intros b (ir & Hir & <-)%H2.
    exists ir.2. assert (ir ∈ first_page_data) as Hin by tauto.
    destruct (Hrow ir Hin). done. }
  split.
  { rewrite H3. split.
    - intros Hall r Hr Hp. destruct (Hrow' r Hr Hp) as (ir & Hir & <-).
      by apply Hall.
    - intros Hall ir Hir. destruct (Hrow ir Hir). by apply Hall. }
  intros pre r post E. apply (H4 pre r post). by rewrite Hsnd.
Qed.

(** X12. [find_abstract] returns at most two block numbers, all of them
    blocks of page-1 rows; the result is empty exactly when no page-1
    word contains "abstract" after trimming and lower-casing, and
    otherwise it contains the block of the first such word. *)
Theorem find_abstract_spec (ocr_data : list Ocr.Row) :
  let hit (r : Ocr.Row) := contains "abstract" (lower (strip (Ocr.text r))) in
  (size (find_abstract ocr_data) ≤ 2)%nat ∧
  (∀ b, b ∈ find_abstract ocr_data →
        ∃ r, r ∈ ocr_data ∧ Ocr.page_num r = 1 ∧ Ocr.block_num r = b) ∧
  (find_abstract ocr_data = ∅ ↔
   ∀ r, r ∈ ocr_data → Ocr.page_num r = 1 → hit r = false) ∧
  (∀ pre r post,
     filter (λ r, Ocr.page_num r = 1) ocr_data = pre ++ r :: post →
     (∀ r', r' ∈ pre → hit r' = false) → hit r = true →
     Ocr.block_num r ∈ find_abstract ocr_data).
Proof. apply (first_page_blocks_spec "abstract"). Qed.

Lemma find_abstract_spec_witness :
  1 ∈ find_abstract
        [Ocr.mk 1 0 100 100 300 40 "Title"; Ocr.mk 2 0 100 10 90 20 "Abstract";
         Ocr.mk 1 1 100 300 90 30 "ABSTRACT:"; Ocr.mk 1 2 100 340 90 30 "We"].
Proof.
  destruct (find_abstract_spec
    [Ocr.mk 1 0 100 100 300 40 "Title"; Ocr.mk 2 0 100 10 90 20 "Abstract";
     Ocr.mk 1 1 100 300 90 30 "ABSTRACT:"; Ocr.mk 1 2 100 340 90 30 "We"])
    as (_ & _ & _ & Hfirst).
  apply (Hfirst [Ocr.mk 1 0 100 100 300 40 "Title"]
                (Ocr.mk 1 1 100 300 90 30 "ABSTRACT:")
                [Ocr.mk 1 2 100 340 90 30 "We"]).
  - reflexivity.
  - intros r' ->%list_elem_of_singleton. reflexivity.
  - reflexivity.
Defined.

(** X13. [find_keywords] behaves in the same way for "keywords": at
    most two blocks, all from page 1, none exactly when no page-1 word
    contains "keywords", and otherwise the block of the first such word
    is among them. *)
Theorem find_keywords_spec (ocr_data : list Ocr.Row) :
  let hit (r : Ocr.Row) := contains "keywords" (lower (strip (Ocr.text r))) in
  (size (find_keywords ocr_data) ≤ 2)%nat ∧
  (∀ b, b ∈ find_keywords ocr_data →
        ∃ r, r ∈ ocr_data ∧ Ocr.page_num r = 1 ∧ Ocr.block_num r = b) ∧
  (find_keywords ocr_data = ∅ ↔
   ∀ r, r ∈ ocr_data → Ocr.page_num r = 1 → hit r = false) ∧
  (∀ pre r post,
     filter (λ r, Ocr.page_num r = 1) ocr_data = pre ++ r :: post →
     (∀ r', r' ∈ pre → hit r' = false) → hit r = true →
     Ocr.block_num r ∈ find_keywords ocr_data).
Proof. apply (first_page_blocks_spec "keywords"). Qed.

Lemma find_keywords_spec_witness :
  5 ∈ find_keywords
        [Ocr.mk 1 4 100 500 90 30 "corpus."; Ocr.mk 1 5 100 560 90 30 "Keywords:";
         Ocr.mk 1 5 200 560 90 30 "OCR"].
Proof.
  destruct (find_keywords_spec
    [Ocr.mk 1 4 100 500 90 30 "corpus."; Ocr.mk 1 5 100 560 90 30 "Keywords:";
     Ocr.mk 1 5 200 560 90 30 "OCR"])
    as (_ & _ & _ & Hfirst).
  apply (Hfirst [Ocr.mk 1 4 100 500 90 30 "corpus."]
                (Ocr.mk 1 5 100 560 90 30 "Keywords:")
                [Ocr.mk 1 5 200 560 90 30 "OCR"]).
  - reflexivity.
  - intros r' ->%list_elem_of_singleton. reflexivity.
  - reflexivity.
Defined.

(** ** Fuzzy matching, continued *)

Lemma lower_ascii_idemp (c : ascii) : lower_ascii (lower_ascii c) = lower_ascii c.
Proof. destruct c as [[] [] [] [] [] [] [] []]; reflexivity. Qed.

Lemma lower_idemp (s : string) : lower (lower s) = lower s.
Proof.
  induction s as [|c s IH]; simpl; [done|]. by rewrite lower_ascii_idemp, IH.
Qed.

Lemma lower_app (s t : string) : lower (s ++ t) = (lower s ++ lower t)%string.
Proof. induction s as [|c s IH]; simpl; [done|]. by rewrite IH. Qed.

Lemma lower_concat_lower (sep : string) (l : list string) :
  lower (String.concat sep (map lower l)) = lower (String.concat sep l).
Proof.
  induction l as [|x l IH]; [done|].
  destruct l as [|y l]; [apply lower_idemp|].
  change (lower (lower x ++ sep ++ String.concat sep (map lower (y :: l)))
          = lower (x ++ sep ++ String.concat sep (y :: l))).
  by rewrite !lower_app, lower_idemp, IH.
Qed.

(** Tables that agree row by row up to letter case have the same group
    texts up to letter case. *)
Lemma group_text_same_case (df df' : list Ocr.Row) k :
  Forall2 (λ r r', Ocr.key r = Ocr.key r' ∧
                   lower (Ocr.text r) = lower (Ocr.text r')) df df' →
  lower (group_text df k) = lower (group_text df' k).
Proof.
  intros Hrows. unfold group_text.
  rewrite <- (lower_concat_lower " " (map Ocr.text (filter _ df))).
  rewrite <- (lower_concat_lower " " (map Ocr.text (filter _ df'))).
  do 2 f_equal.
  induction Hrows as [|r r' df df' [Hk Ht] _ IH]; [done|].
  rewrite !filter_cons, <- Hk.
  destruct (decide (Ocr.key r = k)); cbn [map]; [|done].
  by rewrite Ht, IH.
Qed.

Lemma best_row_fold_ext chars (g1 g2 : Z * Z → string) (ks : list (Z * Z)) st :
  (∀ k, lower (g1 k) = lower (g2 k)) →
  foldl (best_row chars) st (map (λ k, (k.1, k.2, g1 k)) ks)
  = foldl (best_row chars) st (map (λ k, (k.1, k.2, g2 k)) ks).
Proof.
  intros Hg. revert st. induction ks as [|k ks IH]; intros st; [done|].
  cbn [map foldl]. unfold best_row at 2 4. rewrite Hg. apply IH.
Qed.

(** X14. The match ignores letter case: two queries that differ only in
    the case of their letters, run on two tables that agree row by row
    in everything but the case of the letters of the text, give the
    same result. *)
Theorem find_block_num_case (chars chars' : string) (df df' : list Ocr.Row) :
  lower chars = lower chars' →
  Forall2 (λ r r', Ocr.key r = Ocr.key r' ∧
                   lower (Ocr.text r) = lower (Ocr.text r')) df df' →
  find_block_num chars df = find_block_num chars' df'.
Proof.
  intros Hq Hrows.
  assert (Hkeys : group_keys df = group_keys df').
  { unfold group_keys. f_equal.
    induction Hrows as [|r r' l l' [Hk _] _ IH]; [done|].
    cbn [map]. by rewrite Hk, IH. }
  assert (E : ∀ c d, find_block_num c d =
            match d with
            | [] => Raise ValueError
            | _ => let '(block_num, page_num, _) :=
                     foldl (best_row (lower c)) (None, None, None)
                           (groupby_join d) in
                   Ok (block_num, page_num)
            end) by (by intros c []).
  rewrite !E, <- Hq. destruct Hrows as [|r r' l l' Hr Hl]; [done|].
  unfold groupby_join. rewrite Hkeys.
  rewrite (best_row_fold_ext _ (group_text (r :: l)) (group_text (r' :: l')));
    [done|].
  intros k. apply group_text_same_case. by constructor.
Qed.

Lemma find_block_num_case_witness :
  find_block_num (String "201" "lan VITAL")
    [Ocr.mk 1 0 100 10 90 20 "Title"; Ocr.mk 1 3 100 100 90 20 (String "233" "LAN");
     Ocr.mk 1 3 200 100 90 20 "vital"]
  = find_block_num (String "233" "LAN vital")
    [Ocr.mk 1 0 300 15 40 20 "TITLE"; Ocr.mk 1 3 100 100 90 20 (String "201" "lan");
     Ocr.mk 1 3 200 100 90 20 "Vital"].
Proof.
  apply find_block_num_case; [reflexivity|].
  repeat (constructor; [split; reflexivity|]). constructor.
Defined.

(** ** The augmented table, continued *)

(** The intermediate results of a successful run. *)
Lemma process_segmentation_passes segmentation_df ocr_data out :
  process_segmentation segmentation_df ocr_data = Ok out →
  ∃ (H A S : list Seg.Row) (E1 E2 E3 : gset (Z * Z)),
    let E0 : gset (Z * Z) := list_to_set (map Seg.key segmentation_df) in
    let rows := first_by Ocr.key ∅ ocr_data in
    let sections :=
      filter (λ r, Seg.type_ r = "Section") (segmentation_df ++ H) in
    headline_pass segmentation_df ocr_data E0 = (H, E1) ∧
    for_each (author_row (author_bounds (segmentation_df ++ H)).1
                         (author_bounds (segmentation_df ++ H)).2)
             rows ([], E1) = Ok (A, E2) ∧
    foldl (section_pair rows) ([], E2) (zip sections (tail sections)) = (S, E3) ∧
    out = sort_values (((segmentation_df ++ H) ++ A) ++ S).
Proof.
  unfold process_segmentation.
  destruct (headline_pass _ _ _) as [H E1].
  destruct (author_bounds _) as [t n] eqn:EB.
  destruct (for_each _ _ _) as [[A E2]|e] eqn:EA; simpl; [|done].
  destruct (foldl _ _ _) as [S E3] eqn:ES.
  intros [= <-]. exists H, A, S, E1, E2, E3. cbv zeta. by rewrite EB.
Qed.

Lemma headline_rows_type segmentation_df ocr_data E H E1 :
  headline_pass segmentation_df ocr_data E = (H, E1) →
  ∀ r, r ∈ H → Seg.type_ r = "Headline".
Proof.
  intros EH r Hr.
  pose proof (headline_pass_adds segmentation_df ocr_data E) as HH.
  rewrite EH in HH. apply adds_from_nil in HH as (_ & _ & FH & _).
  destruct (FH r Hr) as (-> & _). done.
Qed.

Lemma filter_type_app (ty : string) (segmentation_df H : list Seg.Row) :
  (∀ r, r ∈ H → Seg.type_ r ≠ ty) →
  filter (λ r, Seg.type_ r = ty) (segmentation_df ++ H)
  = filter (λ r, Seg.type_ r = ty) segmentation_df.
Proof.
  intros Hty. rewrite filter_app.
  assert (E : filter (λ r, Seg.type_ r = ty) H = []); [|by rewrite E, app_nil_r].
  induction H as [|r H IH]; [done|].
  rewrite filter_cons. destruct (decide _) as [Et|_].
  - destruct (Hty r); [by left|done].
  - apply IH. intros r' Hr'. apply Hty. by right.
Qed.

(** X15. [process_segmentation] never invents or rewrites rows: every
    row of the returned table is an input row, or a Headline, Author or
    Section row without section columns whose key is the key of an OCR
    block that the input did not classify. *)
Theorem process_segmentation_provenance
    (segmentation_df : list Seg.Row) (ocr_data : list Ocr.Row)
    (out : list Seg.Row) :
  process_segmentation segmentation_df ocr_data = Ok out →
  ∀ r, r ∈ out →
    r ∈ segmentation_df ∨
    ((Seg.type_ r = "Headline" ∨ Seg.type_ r = "Author" ∨
      Seg.type_ r = "Section") ∧
     Seg.section r = None ∧
     (Seg.key r ∉ map Seg.key segmentation_df) ∧
     ∃ o, o ∈ ocr_data ∧ Ocr.key o = Seg.key r).
Proof.
  intros (H & A & S & E1 & E2 & E3 & EH & EA & ES & ->)%process_segmentation_passes.
  pose proof (headline_pass_adds segmentation_df ocr_data
                (list_to_set (map Seg.key segmentation_df))) as HH.
  rewrite EH in HH. apply author_pass_adds in EA.
  match type of ES with
  | foldl (section_pair ?rows) ?st ?pairs = _ =>
      pose proof (section_pass_adds rows pairs st) as HS; rewrite ES in HS
  end.
  apply adds_from_nil in HH as (-> & _ & FH & _).
  apply adds_from_nil in EA as (-> & _ & FA & _).
  apply adds_from_nil in HS as (_ & _ & FS & _).
  intros r Hr. rewrite sort_values_perm, !elem_of_app in Hr.
  destruct Hr as [[[Hr|Hr]|Hr]|Hr]; [by left|right..].
  - destruct (FH r Hr) as (Er & Hn & row & _ & _ & o & Ho & Hk & _).
    rewrite Er. cbn. split; [by left|]. split; [done|]. split; [|eauto].
    intros Hin. apply Hn. rewrite Er. cbn. by apply elem_of_list_to_set.
  - destruct (FA r Hr) as (Er & Hn & o & Ho & Hk & _).
    apply first_by_elem in Ho as [Ho _].
    rewrite Er. cbn. split; [right; by left|]. split; [done|]. split; [|eauto].
    intros Hin. apply Hn. rewrite Er. cbn.
    apply elem_of_union_r. by apply elem_of_list_to_set.
  - destruct (FS r Hr) as (Er & Hn & pair0 & _ & o & Ho & Hk & _).
    apply first_by_elem in Ho as [Ho _].
    rewrite Er. cbn. split; [right; by right|]. split; [done|]. split; [|eauto].
    intros Hin. apply Hn. rewrite Er. cbn.
    do 2 apply elem_of_union_r. by apply elem_of_list_to_set.
Qed.

Lemma process_segmentation_provenance_witness :
  ∃ o, o ∈ [Ocr.mk 1 0 100 100 300 40 "Title";
            Ocr.mk 1 1 150 200 250 30 "Author";
            Ocr.mk 1 2 100 300 90 30 "Abstract:"] ∧
       Ocr.key o = (1, 1).
Proof.
  destruct (process_segmentation_provenance
    [Seg.mk "Title" 0 1 None; Seg.mk "Abstract" 2 1 None]
    [Ocr.mk 1 0 100 100 300 40 "Title"; Ocr.mk 1 1 150 200 250 30 "Author";
     Ocr.mk 1 2 100 300 90 30 "Abstract:"]
    [Seg.mk "Title" 0 1 None; Seg.mk "Author" 1 1 None;
     Seg.mk "Abstract" 2 1 None] eq_refl (Seg.mk "Author" 1 1 None))
    as [Hin|(_ & _ & _ & Ho)]; [right; left| |exact Ho].
  exfalso. apply elem_of_cons in Hin as [[=]|Hin].
  apply elem_of_cons in Hin as [[=]|Hin]. by apply elem_of_nil in Hin.
Defined.

(** X16. An Author row that [process_segmentation] adds lies on page 1,
    after the block of the first Title row of the input and before
    every other block of page 1 that the input classifies. *)
Theorem process_segmentation_author_rows
    (segmentation_df : list Seg.Row) (ocr_data : list Ocr.Row)
    (out : list Seg.Row) :
  process_segmentation segmentation_df ocr_data = Ok out →
  ∀ r, r ∈ out → Seg.type_ r = "Author" →
    r ∈ segmentation_df ∨
    (Seg.page_num r = 1 ∧
     ∃ title rest,
       filter (λ r, Seg.type_ r = "Title") segmentation_df = title :: rest ∧
       Seg.block_num title < Seg.block_num r ∧
       ∀ c, c ∈ segmentation_df → Seg.page_num c = 1 →
            Seg.block_num c ≠ Seg.block_num title →
            Seg.block_num r < Seg.block_num c).
Proof.
  intros (H & A & S & E1 & E2 & E3 & EH & EA & ES & ->)%process_segmentation_passes.
  pose proof (headline_rows_type _ _ _ _ _ EH) as HtyH.
  apply author_pass_adds in EA.
  match type of ES with
  | foldl (section_pair ?rows) ?st ?pairs = _ =>
      pose proof (section_pass_adds rows pairs st) as HS; rewrite ES in HS
  end.
  apply adds_from_nil in EA as (_ & _ & FA & _).
  apply adds_from_nil in HS as (_ & _ & FS & _).
  intros r Hr Hty. rewrite sort_values_perm, !elem_of_app in Hr.
  destruct Hr as [[[Hr|Hr]|Hr]|Hr]; [by left| | |].
  - rewrite (HtyH r Hr) in Hty. done.
  - right. destruct (FA r Hr) as (_ & _ & o & _ & Hk & Hp & t & Et & Hlt & Hnext).
    split; [done|].
    unfold author_bounds in Et, Hnext.
    rewrite filter_type_app in Et, Hnext
      by (intros r' Hr' E; rewrite (HtyH r' Hr') in E; done).
    destruct (filter (λ r, Seg.type_ r = "Title") segmentation_df)
      as [|title rest]; [done|].
    cbn [fst snd] in Et, Hnext. injection Et as <-.
    exists title, rest. split; [done|]. split; [done|].
    intros c Hc Hcp Hne.
    apply lt_num_true in Hnext as (m & Em & Hm).
    apply series_min_spec in Em as [_ Hle].
    assert (m ≤ Seg.block_num c); [|simpl in *; lia].
    apply Hle, elem_of_map. exists c. split; [done|].
    apply list_elem_of_filter. split; [done|]. apply elem_of_app. by left.
  - destruct (FS r Hr) as (Er & _). rewrite Er in Hty. done.
Qed.

Lemma process_segmentation_author_rows_witness :
  Seg.page_num (Seg.mk "Author" 1 1 None) = 1.
Proof.
  destruct (process_segmentation_author_rows
    [Seg.mk "Title" 0 1 None; Seg.mk "Abstract" 2 1 None]
    [Ocr.mk 1 0 100 100 300 40 "Title"; Ocr.mk 1 1 150 200 250 30 "Author";
     Ocr.mk 1 2 100 300 90 30 "Abstract:"]
    [Seg.mk "Title" 0 1 None; Seg.mk "Author" 1 1 None;
     Seg.mk "Abstract" 2 1 None] eq_refl (Seg.mk "Author" 1 1 None))
    as [Hin|[Hp _]]; [right; left|reflexivity| |exact Hp].
  exfalso. apply elem_of_cons in Hin as [[=]|Hin].
  apply elem_of_cons in Hin as [[=]|Hin]. by apply elem_of_nil in Hin.
Defined.

(** X17. A Section row that [process_segmentation] adds has a block
    number strictly between those of two Section rows that follow one
    another in the input, whatever the pages of the three rows. *)
Theorem process_segmentation_section_rows
    (segmentation_df : list Seg.Row) (ocr_data : list Ocr.Row)
    (out : list Seg.Row) :
  process_segmentation segmentation_df ocr_data = Ok out →
  ∀ r, r ∈ out → Seg.type_ r = "Section" →
    r ∈ segmentation_df ∨
    ∃ current_section next_section,
      let sections := filter (λ r, Seg.type_ r = "Section") segmentation_df in
      (current_section, next_section) ∈ zip sections (tail sections) ∧
      Seg.block_num current_section < Seg.block_num r
        < Seg.block_num next_section.
Proof.
  intros (H & A & S & E1 & E2 & E3 & EH & EA & ES & ->)%process_segmentation_passes.
  pose proof (headline_rows_type _ _ _ _ _ EH) as HtyH.
  apply author_pass_adds in EA.
  match type of ES with
  | foldl (section_pair ?rows) ?st ?pairs = _ =>
      pose proof (section_pass_adds rows pairs st) as HS; rewrite ES in HS
  end.
  apply adds_from_nil in EA as (_ & _ & FA & _).
  apply adds_from_nil in HS as (_ & _ & FS & _).
  intros r Hr Hty. rewrite sort_values_perm, !elem_of_app in Hr.
  destruct Hr as [[[Hr|Hr]|Hr]|Hr]; [by left| | |].
  - rewrite (HtyH r Hr) in Hty. done.
  - destruct (FA r Hr) as (Er & _). rewrite Er in Hty. done.
  - right. destruct (FS r Hr) as (_ & _ & [cur next] & Hpair & o & _ & Hk & Hlt).
    rewrite filter_type_app in Hpair
      by (intros r' Hr' E; rewrite (HtyH r' Hr') in E; done).
    exists cur, next. split; [done|]. done.
Qed.

Lemma process_segmentation_section_rows_witness :
  ∃ current_section next_section,
    Seg.block_num current_section < 5 < Seg.block_num next_section.
Proof.
  destruct (process_segmentation_section_rows
    [Seg.mk "Title" 0 1 None; Seg.mk "Section" 3 1 (Some (0, "Intro", "1"));
     Seg.mk "Section" 7 2 (Some (0, "Method", "2"))]
    [Ocr.mk 1 0 100 100 300 40 "Title"; Ocr.mk 1 3 100 300 90 30 "Intro";
     Ocr.mk 2 5 100 100 90 30 "text"; Ocr.mk 2 7 100 300 90 30 "Method"]
    [Seg.mk "Title" 0 1 None; Seg.mk "Section" 3 1 (Some (0, "Intro", "1"));
     Seg.mk "Section" 5 2 None;
     Seg.mk "Section" 7 2 (Some (0, "Method", "2"))]
    eq_refl (Seg.mk "Section" 5 2 None))
    as [Hin|(c & n & _ & Hlt)]; [do 2 right; left|reflexivity| |eauto].
  exfalso.
  repeat (apply elem_of_cons in Hin as [[=]|Hin]). by apply elem_of_nil in Hin.
Defined.

Lemma for_each_author_none_ok n rows st :
  (∀ o, o ∈ rows → Ocr.page_num o = 1 → Ocr.key o ∈ st.2) →
  for_each (author_row None n) rows st = Ok st.
Proof.
  induction rows as [|row rows IH]; intros Hall; cbn [for_each]; [done|].
  assert (E : author_row None n st row = Ok st).
  { unfold author_row. fold (Ocr.key row).
    destruct (decide (Ocr.key row ∈ st.2)) as [|Hn]; [done|].
    destruct (decide (Ocr.page_num row = 1)) as [Hp|]; [|done].
    destruct Hn. apply Hall; [by left|done]. }
  rewrite E. cbn [bind]. apply IH. intros o Ho. apply Hall. by right.
Qed.

(** X18. Without a Title row the run still succeeds when every OCR block
    of page 1 is already classified by the input; it then adds Section
    rows only. *)
Theorem process_segmentation_no_title_ok
    (segmentation_df : list Seg.Row) (ocr_data : list Ocr.Row) :
  (∀ r, r ∈ segmentation_df → Seg.type_ r ≠ "Title") →
  (∀ o, o ∈ ocr_data → Ocr.page_num o = 1 →
        Ocr.key o ∈ map Seg.key segmentation_df) →
  ∃ out, process_segmentation segmentation_df ocr_data = Ok out ∧
    ∀ r, r ∈ out → r ∈ segmentation_df ∨ Seg.type_ r = "Section".
Proof.
  intros Hno Hall.
  assert (E : ∃ S E3 c, process_segmentation segmentation_df ocr_data
                      = Ok (sort_values (((segmentation_df ++ []) ++ []) ++ S)) ∧
     adds "Section" c ([], list_to_set (map Seg.key segmentation_df)) (S, E3)).
  { unfold process_segmentation.
    rewrite headline_pass_no_title by done.
    rewrite app_nil_r, author_bounds_no_title by done.
    rewrite for_each_author_none_ok.
    - cbn [bind].
      match goal with
      | |- context [foldl (section_pair ?rows) ?st ?pairs] =>
          pose proof (section_pass_adds rows pairs st) as HS;
          destruct (foldl (section_pair rows) st pairs) as [S E3]
      end.
      exists S, E3. eexists. rewrite !app_nil_r. split; [done|exact HS].
    - intros o [Ho _]%first_by_elem Hp. cbn [snd].
      apply elem_of_list_to_set. by apply Hall. }
  destruct E as (S & E3 & c & -> & HS).
  eexists. split; [done|].
  apply adds_from_nil in HS as (_ & _ & FS & _).
  intros r Hr. rewrite sort_values_perm, !app_nil_r, elem_of_app in Hr.
  destruct Hr as [?|Hr]; [by left|]. right.
  destruct (FS r Hr) as (-> & _). done.
Qed.

Lemma process_segmentation_no_title_ok_witness :
  ∃ out,
    process_segmentation
      [Seg.mk "Abstract" 3 1 None; Seg.mk "Headline" 0 1 None]
      [Ocr.mk 1 0 100 10 300 40 "arXiv"; Ocr.mk 1 3 100 300 90 30 "Abstract";
       Ocr.mk 2 0 100 10 300 40 "text"]
    = Ok out.
Proof.
  destruct (process_segmentation_no_title_ok
    [Seg.mk "Abstract" 3 1 None; Seg.mk "Headline" 0 1 None]
    [Ocr.mk 1 0 100 10 300 40 "arXiv"; Ocr.mk 1 3 100 300 90 30 "Abstract";
     Ocr.mk 2 0 100 10 300 40 "text"]) as (out & E & _).
  - intros r Hr.
    repeat (apply elem_of_cons in Hr as [->|Hr]; [done|]).
    by apply elem_of_nil in Hr.
  - intros o Ho Hp.
    repeat (apply elem_of_cons in Ho as [->|Ho];
            [first [discriminate Hp | simpl; set_solver]|]).
    by apply elem_of_nil in Ho.
  - eauto.
Defined.

Lemma headline_pass_empty_ocr segmentation_df E :
  headline_pass segmentation_df [] E = ([], E).
Proof.
  unfold headline_pass. generalize ([] : list Seg.Row, E).
  induction segmentation_df as [|row l IH]; intros st; [done|].
  cbn [foldl].
  assert (Est : headline_title [] st row = st)
    by (unfold headline_title; by destruct (decide _)).
  rewrite Est. apply IH.
Qed.

Lemma section_pass_empty_ocr pairs st :
  foldl (section_pair []) st pairs = st.
Proof. induction pairs as [|p pairs IH]; [done|]. exact IH. Qed.

(** X19. On an empty OCR table [process_segmentation] adds nothing and
    returns the input rows sorted, with or without a Title row. *)
Theorem process_segmentation_empty_ocr (segmentation_df : list Seg.Row) :
  process_segmentation segmentation_df [] = Ok (sort_values segmentation_df).
Proof.
  unfold process_segmentation.
  rewrite headline_pass_empty_ocr.
  destruct (author_bounds _) as [t n]. cbn [first_by for_each bind].
  rewrite section_pass_empty_ocr. by rewrite !app_nil_r.
Qed.

(** X20. When no Title row of the input has an OCR word on its block,
    its bounding box is all [NaN], every comparison with its top fails,
    and the run adds no Headline row. *)
Theorem process_segmentation_unmatched_title
    (segmentation_df : list Seg.Row) (ocr_data : list Ocr.Row)
    (out : list Seg.Row) :
  (∀ row, row ∈ segmentation_df → Seg.type_ row = "Title" →
          ∀ o, o ∈ ocr_data → Ocr.key o ≠ Seg.key row) →
  process_segmentation segmentation_df ocr_data = Ok out →
  ∀ r, r ∈ out → Seg.type_ r = "Headline" → r ∈ segmentation_df.
Proof.
  intros Hmiss
    (H & A & S & E1 & E2 & E3 & EH & EA & ES & ->)%process_segmentation_passes.
  pose proof (headline_pass_adds segmentation_df ocr_data
                (list_to_set (map Seg.key segmentation_df))) as HH.
  rewrite EH in HH. apply author_pass_adds in EA.
  match type of ES with
  | foldl (section_pair ?rows) ?st ?pairs = _ =>
      pose proof (section_pass_adds rows pairs st) as HS; rewrite ES in HS
  end.
  apply adds_from_nil in HH as (_ & _ & FH & _).
  apply adds_from_nil in EA as (_ & _ & FA & _).
  apply adds_from_nil in HS as (_ & _ & FS & _).
  intros r Hr Hty. rewrite sort_values_perm, !elem_of_app in Hr.
  destruct Hr as [[[Hr|Hr]|Hr]|Hr]; [done| | |].
  - destruct (FH r Hr) as (_ & _ & row & Hrow & Htitle & o & Ho & _ & Hlt).
    rewrite calculate_bbox_no_match in Hlt; [done|].
    intros o' Ho'. by apply Hmiss.
  - destruct (FA r Hr) as (Er & _). rewrite Er in Hty. done.
  - destruct (FS r Hr) as (Er & _). rewrite Er in Hty. done.
Qed.

Lemma process_segmentation_unmatched_title_witness :
  Seg.mk "Headline" 0 1 None
  ∈ [Seg.mk "Title" 9 1 None; Seg.mk "Headline" 0 1 None].
Proof.
  apply (process_segmentation_unmatched_title
    [Seg.mk "Title" 9 1 None; Seg.mk "Headline" 0 1 None]
    [Ocr.mk 1 0 100 10 300 40 "arXiv"; Ocr.mk 1 3 100 300 90 30 "Abstract"]
    [Seg.mk "Headline" 0 1 None; Seg.mk "Title" 9 1 None]).
  - intros row Hrow Hty o Ho.
    apply elem_of_cons in Hrow as [->|Hrow].
    + repeat (apply elem_of_cons in Ho as [->|Ho]; [discriminate|]).
      by apply elem_of_nil in Ho.
    + apply list_elem_of_singleton in Hrow. subst row. discriminate Hty.
  - reflexivity.
  - left.
  - reflexivity.
Defined.

(** ** Heading words followed by their text ([find_abstract], [find_keywords]) *)

Lemma first_page_scan_skip search_string fpd (pre rows : list (nat * Ocr.Row)) acc :
  (∀ ir, ir ∈ pre →
         contains search_string (lower (strip (Ocr.text ir.2))) = false) →
  first_page_scan search_string fpd (pre ++ rows) acc
  = first_page_scan search_string fpd rows acc.
Proof.
  induction pre as [|[i r] pre IH]; intros Hpre; [done|].
  cbn [app first_page_scan].
  assert (E : contains search_string (lower (strip (Ocr.text r))) = false)
    by (apply (Hpre (i, r)); by left).
  rewrite E. apply IH. intros ir Hir. apply Hpre. by right.
Qed.

Lemma iterrows_all_first_page (ocr_data : list Ocr.Row) :
  (∀ o, o ∈ ocr_data → Ocr.page_num o = 1) →
  filter (λ ir : nat * Ocr.Row, Ocr.page_num ir.2 = 1) (iterrows ocr_data)
  = iterrows ocr_data.
Proof.
  intros Hall.
  assert (Hrows : ∀ ir, ir ∈ iterrows ocr_data → Ocr.page_num ir.2 = 1).
  { intros [i r] (j & x & [= -> ->] & Hx)%elem_of_lookup_imap. cbn.
    apply Hall. by eapply list_elem_of_lookup_2. }
  induction (iterrows ocr_data) as [|ir l IH]; [done|].
  rewrite filter_cons_True by (apply Hrows; by left).
  f_equal. apply IH. intros ir' Hir'. apply Hrows. by right.
Qed.

Lemma first_page_next_block search_string (pre : list Ocr.Row)
    (r next : Ocr.Row) (post : list Ocr.Row) :
  let ocr_data := pre ++ r :: next :: post in
  let first_page_data :=
    filter (λ ir : nat * Ocr.Row, Ocr.page_num ir.2 = 1) (iterrows ocr_data) in
  (∀ o, o ∈ ocr_data → Ocr.page_num o = 1) →
  (∀ r', r' ∈ pre →
         contains search_string (lower (strip (Ocr.text r'))) = false) →
  contains search_string (lower (strip (Ocr.text r))) = true →
  first_page_scan search_string first_page_data first_page_data ∅ =
    if String.eqb (lower (strip (Ocr.text r))) search_string
    then {[Ocr.block_num next; Ocr.block_num r]}
    else {[Ocr.block_num r]}.
Proof.
  intros ocr_data first_page_data Hall Hpre Hr.
  assert (Efpd : first_page_data = iterrows ocr_data)
    by (by apply iterrows_all_first_page).
  rewrite Efpd. unfold ocr_data, iterrows at 2. rewrite imap_app.
  rewrite first_page_scan_skip.
  2:{ intros [i x] (j & y & [= -> ->] & Hy)%elem_of_lookup_imap. cbn.
      apply Hpre. by eapply list_elem_of_lookup_2. }
  rewrite imap_cons. cbn [first_page_scan]. rewrite Hr.
  destruct (String.eqb _ _); [|by rewrite union_empty_r_L].
  assert (Hlen : (length pre + 0 + 1
                    <? length (iterrows (pre ++ r :: next :: post)))%nat = true).
  { apply Nat.ltb_lt. unfold iterrows.
    rewrite length_imap, length_app. simpl. lia. }
  rewrite Hlen.
  assert (Hnext : iterrows (pre ++ r :: next :: post) !! (length pre + 0 + 1)%nat
                  = Some ((length pre + 0 + 1)%nat, next)).
  { unfold iterrows. rewrite list_lookup_imap.
    rewrite lookup_app_r by lia.
    replace (length pre + 0 + 1 - length pre)%nat with 1%nat by lia. done. }
  rewrite Hnext. by rewrite union_empty_r_L.
Qed.

(** X21. On a table whose rows are all on page 1, let [r] be the first
    word containing "abstract" (after trimming and lower-casing) and
    [next] the row after it.  [find_abstract] returns the blocks of [r]
    and [next] when [r] is the bare word "abstract", and the block of
    [r] alone otherwise; [find_keywords] does the same for "keywords". *)
Theorem find_heading_next_block
    (pre : list Ocr.Row) (r next : Ocr.Row) (post : list Ocr.Row) :
  let ocr_data := pre ++ r :: next :: post in
  (∀ o, o ∈ ocr_data → Ocr.page_num o = 1) →
  ((∀ r', r' ∈ pre → contains "abstract" (lower (strip (Ocr.text r'))) = false) →
   contains "abstract" (lower (strip (Ocr.text r))) = true →
   find_abstract ocr_data =
     if String.eqb (lower (strip (Ocr.text r))) "abstract"
     then {[Ocr.block_num next; Ocr.block_num r]}
     else {[Ocr.block_num r]}) ∧
  ((∀ r', r' ∈ pre → contains "keywords" (lower (strip (Ocr.text r'))) = false) →
   contains "keywords" (lower (strip (Ocr.text r))) = true →
   find_keywords ocr_data =
     if String.eqb (lower (strip (Ocr.text r))) "keywords"
     then {[Ocr.block_num next; Ocr.block_num r]}
     else {[Ocr.block_num r]}).
Proof.
  intros ocr_data Hall. split; intros Hpre Hr.
  - by apply (first_page_next_block "abstract").
  - by apply (first_page_next_block "keywords").
Qed.

Lemma find_heading_next_block_witness :
  find_abstract
    [Ocr.mk 1 0 100 100 300 40 "Title"; Ocr.mk 1 1 100 300 90 30 " Abstract";
     Ocr.mk 1 2 100 340 90 30 "We"; Ocr.mk 1 2 200 340 90 30 "show"]
  = {[2; 1]}.
Proof.
  destruct (find_heading_next_block
    [Ocr.mk 1 0 100 100 300 40 "Title"] (Ocr.mk 1 1 100 300 90 30 " Abstract")
    (Ocr.mk 1 2 100 340 90 30 "We") [Ocr.mk 1 2 200 340 90 30 "show"])
    as [Habs _].
  - intros o Ho.
    repeat (apply elem_of_cons in Ho as [->|Ho]; [reflexivity|]).
    by apply elem_of_nil in Ho.
  - apply Habs; [|reflexivity].
    intros r' ->%list_elem_of_singleton. reflexivity.
Defined.
